(** * we3vision backend: the media upload and media directory routes

    A shallow embedding of [middleware/upload.js] (storage namer, upload
    filter, upload error handler), [routes/media.js] (list, upload and
    delete handlers) and the application error handler of [server.js],
    with the properties the specification states about them.

    JavaScript strings are modelled as lists of characters ([str]); every
    pattern and literal of the routes is ASCII, and a character outside
    ASCII never matches an ASCII pattern character, so one [ascii] per
    code unit is enough for what is proved here. *)

From Stdlib Require Import String Ascii List Bool Arith ZArith NArith Lia.
From Stdlib Require Import Permutation DecimalString DecimalPos DecimalN.
Import ListNotations.

Set Implicit Arguments.

Local Open Scope list_scope.

(** ** Strings *)

Definition str := list ascii.

(** A string literal of the source. *)
Definition lit (s : string) : str := list_ascii_of_string s.

Definition str_eqb (a b : str) : bool :=
  if list_eq_dec ascii_dec a b then true else false.

(** [String.prototype.startsWith]. *)
Fixpoint startsWith (prefix s : str) : bool :=
  match prefix, s with
  | [], _ => true
  | _ :: _, [] => false
  | p :: prefix', c :: s' => Ascii.eqb p c && startsWith prefix' s'
  end.

(** [String.prototype.includes]. *)
Fixpoint includes (needle s : str) : bool :=
  startsWith needle s ||
  match s with
  | [] => false
  | _ :: s' => includes needle s'
  end.

(** ASCII case mapping: the only letters the patterns of the routes name. *)
Definition is_upper (c : ascii) : bool :=
  (65 <=? nat_of_ascii c) && (nat_of_ascii c <=? 90).

Definition is_lower (c : ascii) : bool :=
  (97 <=? nat_of_ascii c) && (nat_of_ascii c <=? 122).

Definition is_digit (c : ascii) : bool :=
  (48 <=? nat_of_ascii c) && (nat_of_ascii c <=? 57).

Definition to_upper (c : ascii) : ascii :=
  if is_lower c then ascii_of_nat (nat_of_ascii c - 32) else c.

Definition to_lower (c : ascii) : ascii :=
  if is_upper c then ascii_of_nat (nat_of_ascii c + 32) else c.

(** [String.prototype.toLowerCase] on ASCII. *)
Definition toLowerCase (s : str) : str := map to_lower s.

(** Two strings that differ at most in the case of their letters. *)
Definition eq_ignore_case (a b : str) : Prop := map to_upper a = map to_upper b.

(** [Number.prototype.toString] of a non-negative integer below 1e21, which
    [Date.now()] and [Math.round(Math.random() * 1E9)] always are: the
    decimal digits. *)
Definition number_to_string (n : N) : str :=
  lit (NilZero.string_of_uint (N.to_uint n)).

(** ** Regular expressions

    The three patterns of [routes/media.js] use character classes,
    sequence, alternation, [?], [+], the anchors and the [i] flag.  They are
    embedded as terms of [re] and run by a derivative matcher. *)

Module Regex.

Inductive re : Type :=
| Void
| Eps
| Class (p : ascii -> bool)
| Seq (r1 r2 : re)
| Alt (r1 r2 : re)
| Star (r : re).

(** A literal character, and the same under the [i] flag (ECMAScript
    compares the upper-cased characters). *)
Definition Chr (c : ascii) : re := Class (Ascii.eqb c).
Definition ChrI (c : ascii) : re :=
  Class (fun x => Ascii.eqb (to_upper x) (to_upper c)).

Definition Opt (r : re) : re := Alt r Eps.
Definition Plus (r : re) : re := Seq r (Star r).

Fixpoint Lit (s : str) : re :=
  match s with
  | [] => Eps
  | c :: s' => Seq (Chr c) (Lit s')
  end.

Fixpoint LitI (s : str) : re :=
  match s with
  | [] => Eps
  | c :: s' => Seq (ChrI c) (LitI s')
  end.

Fixpoint nullable (r : re) : bool :=
  match r with
  | Void => false
  | Eps => true
  | Class _ => false
  | Seq r1 r2 => nullable r1 && nullable r2
  | Alt r1 r2 => nullable r1 || nullable r2
  | Star _ => true
  end.

Fixpoint deriv (c : ascii) (r : re) : re :=
  match r with
  | Void => Void
  | Eps => Void
  | Class p => if p c then Eps else Void
  | Seq r1 r2 =>
      if nullable r1
      then Alt (Seq (deriv c r1) r2) (deriv c r2)
      else Seq (deriv c r1) r2
  | Alt r1 r2 => Alt (deriv c r1) (deriv c r2)
  | Star r1 => Seq (deriv c r1) (Star r1)
  end.

(** The whole of [s] is matched by [r]. *)
Fixpoint matches (r : re) (s : str) : bool :=
  match s with
  | [] => nullable r
  | c :: s' => matches (deriv c r) s'
  end.

(** [/^r$/.test(s)] *)
Definition test_anchored (r : re) (s : str) : bool := matches r s.

(** [/r$/.test(s)]: some suffix of [s] is matched by [r]; the start
    positions are tried from the left. *)
Fixpoint test_at_end (r : re) (s : str) : bool :=
  matches r s ||
  match s with
  | [] => false
  | _ :: s' => test_at_end r s'
  end.

(** [s.replace(/r$/, '')]: the leftmost start position from which [r]
    matches up to the end of [s] is found and the match is cut off; with
    no match [s] is returned as it is. *)
Fixpoint replace_at_end (r : re) (s : str) : str :=
  if matches r s then []
  else match s with
       | [] => []
       | c :: s' => c :: replace_at_end r s'
       end.

(** The language of a pattern, to state what the matcher decides. *)
Inductive lang : re -> str -> Prop :=
| LEps : lang Eps []
| LClass p c : p c = true -> lang (Class p) [c]
| LSeq r1 r2 s1 s2 : lang r1 s1 -> lang r2 s2 -> lang (Seq r1 r2) (s1 ++ s2)
| LAltL r1 r2 s : lang r1 s -> lang (Alt r1 r2) s
| LAltR r1 r2 s : lang r2 s -> lang (Alt r1 r2) s
| LStarNil r : lang (Star r) []
| LStarApp r s1 s2 : lang r s1 -> lang (Star r) s2 -> lang (Star r) (s1 ++ s2).

End Regex.

(** ** Node's [path] module (POSIX), as far as the routes use it *)

Module Path.

(** The variables of the scanning loop of [path.extname]. *)
Record scan : Type := mkScan {
  startDot : Z;
  startPart : Z;
  endPos : Z;
  matchedSlash : bool;
  preDotState : Z
}.

Definition scan0 : scan :=
  {| startDot := -1; startPart := 0; endPos := -1;
     matchedSlash := true; preDotState := 0 |}.

Definition charAt (path : str) (i : nat) : ascii := nth i path "000"%char.

(** The loop [for (i = path.length - 1; i >= 0; --i)], entered with
    [n = i + 1].  A separator met after the last component has started
    ends the loop; separators at the very end are skipped. *)
Fixpoint extname_loop (path : str) (n : nat) (st : scan) : scan :=
  match n with
  | O => st
  | S i =>
      let code := charAt path i in
      if Ascii.eqb code "/"%char then
        if negb (matchedSlash st)
        then mkScan (startDot st) (Z.of_nat i + 1) (endPos st)
                    (matchedSlash st) (preDotState st)
        else extname_loop path i st
      else
        let st1 :=
          if (endPos st =? -1)%Z
          then mkScan (startDot st) (startPart st) (Z.of_nat i + 1)
                      false (preDotState st)
          else st in
        let st2 :=
          if Ascii.eqb code "."%char then
            if (startDot st1 =? -1)%Z
            then mkScan (Z.of_nat i) (startPart st1) (endPos st1)
                        (matchedSlash st1) (preDotState st1)
            else if negb (preDotState st1 =? 1)%Z
            then mkScan (startDot st1) (startPart st1) (endPos st1)
                        (matchedSlash st1) 1
            else st1
          else if negb (startDot st1 =? -1)%Z
          then mkScan (startDot st1) (startPart st1) (endPos st1)
                      (matchedSlash st1) (-1)
          else st1 in
        extname_loop path i st2
  end.

(** [s.slice(a, b)] for [0 <= a <= b], the only way [extname] calls it. *)
Definition slice (s : str) (a b : Z) : str :=
  firstn (Z.to_nat (b - a)) (skipn (Z.to_nat a) s).

(** [path.extname(path)] *)
Definition extname (path : str) : str :=
  let st := extname_loop path (length path) scan0 in
  if ((startDot st =? -1) || (endPos st =? -1) || (preDotState st =? 0) ||
      ((preDotState st =? 1) && (startDot st =? endPos st - 1) &&
       (startDot st =? startPart st + 1)))%Z
  then []
  else slice path (startDot st) (endPos st).

(** What [path.join(UPLOADS_DIR, filename)] names.  A [filename] without
    ["/"] is one path segment: ["."] (and the empty string) is the uploads
    directory itself, [".."] its parent, anything else an entry of the
    directory.  A [filename] with a separator walks elsewhere; where to is
    not tracked. *)
Inductive target : Type :=
| InUploads (name : str)
| UploadsDir
| UploadsParent
| Elsewhere (filename : str).

Definition join_uploads (filename : str) : target :=
  if existsb (Ascii.eqb "/"%char) filename then Elsewhere filename
  else if str_eqb filename [] || str_eqb filename (lit ".") then UploadsDir
  else if str_eqb filename (lit "..") then UploadsParent
  else InUploads filename.

End Path.

(** ** The file system under the uploads directory

    [fs.promises.readdir] and [fs.promises.unlink] belong to Node and the
    host; they are modelled on a flat directory of regular files:
    [uploads] is [None] while the directory does not exist and otherwise
    lists its entries in enumeration order, each name once.  A missing
    entry is reported as ENOENT, a directory given to [unlink] as EISDIR.
    A name longer than [NAME_MAX] can be no entry and the host reports it
    as ENAMETOOLONG, not ENOENT; such names are outside the model, and
    what is stated about a missing file is stated within that bound.
    [fslog] records every call that reaches the file system. *)

(** The longest file name of the host, in bytes. *)
Definition NAME_MAX : nat := 255.

Inductive Errno : Type := ENOENT | EISDIR | EACCES.

Inductive FsCall : Type :=
| CallReaddir
| CallUnlink (t : Path.target)
| CallWrite (name : str).

Record World : Type := mkWorld {
  uploads : option (list str);
  fslog : list FsCall
}.

Definition logged (c : FsCall) (w : World) : World :=
  mkWorld (uploads w) (fslog w ++ [c]).

Definition mem (name : str) (es : list str) : bool := existsb (str_eqb name) es.

Definition remove_entry (name : str) (es : list str) : list str :=
  filter (fun e => negb (str_eqb name e)) es.

(** Creating a file: a name already there is overwritten in place. *)
Definition add_entry (name : str) (es : list str) : list str :=
  if mem name es then es else es ++ [name].

Definition readdir (w : World) : (Errno + list str) * World :=
  let w' := logged CallReaddir w in
  match uploads w with
  | Some es => (inr es, w')
  | None => (inl ENOENT, w')
  end.

Definition unlink (t : Path.target) (w : World) : (Errno + unit) * World :=
  let w' := logged (CallUnlink t) w in
  match t with
  | Path.InUploads name =>
      match uploads w with
      | Some es =>
          if mem name es
          then (inr tt, mkWorld (Some (remove_entry name es)) (fslog w'))
          else (inl ENOENT, w')
      | None => (inl ENOENT, w')
      end
  | Path.UploadsDir =>
      match uploads w with
      | Some _ => (inl EISDIR, w')
      | None => (inl ENOENT, w')
      end
  | Path.UploadsParent => (inl EISDIR, w')
  | Path.Elsewhere _ => (inl EACCES, w')
  end.

(** Creating a file in the uploads directory, as the disk storage of the
    multipart pipeline does for each accepted file. *)
Definition writeFile (name : str) (w : World) : (Errno + unit) * World :=
  let w' := logged (CallWrite name) w in
  match uploads w with
  | Some es => (inr tt, mkWorld (Some (add_entry name es)) (fslog w'))
  | None => (inl ENOENT, w')
  end.

(** ** HTTP responses *)

Record MediaItem : Type := mkItem { filename : str; url : str }.

(** The three JSON bodies of the routes: [{status: 'error', message}],
    [{status: 'success', message}] and [{status: 'success', data}]. *)
Inductive Body : Type :=
| ErrorBody (message : str)
| SuccessMessage (message : str)
| SuccessData (data : list MediaItem).

Record Response : Type := mkResponse { status : nat; body : Body }.

(** ** middleware/upload.js *)

(** The file object multer hands to the storage and filter callbacks. *)
Record File : Type := mkFile {
  fieldname : str;
  originalname : str;
  mimetype : str;
  size : N
}.

(** An error object as the handlers inspect it: [err instanceof
    multer.MulterError], [err.code] and [err.message]. *)
Record JsError : Type := mkError {
  isMulterError : bool;
  code : option str;
  message : str
}.

(** [storage.filename]; [now] is the value of [Date.now()] and [rand] the
    value of [Math.round(Math.random() * 1E9)] of that call. *)
Definition storage_filename (file : File) (now rand : N) : str :=
  let uniqueSuffix := number_to_string now ++ lit "-" ++ number_to_string rand in
  fieldname file ++ lit "-" ++ uniqueSuffix ++ Path.extname (originalname file).

Definition NOT_AN_IMAGE : str := lit "Not an image! Please upload an image.".

(** What a filter passes to its callback. *)
Inductive FilterResult : Type :=
| Accept
| Reject (err : JsError).

Definition fileFilter (file : File) : FilterResult :=
  if startsWith (lit "image/") (mimetype file)
  then Accept
  else Reject (mkError false None NOT_AN_IMAGE).

(** [limits.fileSize] and the arguments of [upload.array('images', 5)]. *)
Definition fileSize : N := 5 * 1024 * 1024.
Definition uploadMultiple_field : str := lit "images".
Definition uploadMultiple_maxCount : nat := 5.

(** An error-handling middleware either answers or calls [next(err)]. *)
Inductive Handled : Type :=
| Respond (r : Response)
| Next (err : JsError).

Definition code_is (err : JsError) (c : string) : bool :=
  match code err with
  | Some k => str_eqb k (lit c)
  | None => false
  end.

Definition handleUploadError (err : JsError) : Handled :=
  let multerAnswer :=
    if isMulterError err then
      if code_is err "LIMIT_FILE_SIZE" then
        Some (mkResponse 400 (ErrorBody (lit "File too large. Maximum size is 5MB.")))
      else if code_is err "LIMIT_FILE_COUNT" then
        Some (mkResponse 400 (ErrorBody (lit "Too many files. Maximum is 5 files.")))
      else None
    else None in
  match multerAnswer with
  | Some r => Respond r
  | None =>
      if str_eqb (message err) NOT_AN_IMAGE
      then Respond (mkResponse 400 (ErrorBody (message err)))
      else Next err
  end.

(** ** server.js: the application's error-handling middleware *)

Definition errorHandler (err : JsError) : Response :=
  if includes (lit "CORS") (message err)
  then mkResponse 403 (ErrorBody (message err))
  else mkResponse 500 (ErrorBody (lit "Something went wrong!")).

(** What the client gets for an error raised before the upload handler:
    [handleUploadError] answers, or hands the error to the error-handling
    middleware the application registers after its routers. *)
Definition upload_error_response (err : JsError) : Response :=
  match handleUploadError err with
  | Respond r => r
  | Next e => errorHandler e
  end.

(** ** routes/media.js

    The handlers are modelled from the point where [protect] and
    [authorize('admin')] have let the request through. *)

Import Regex.

(** [/\.(png|jpe?g|gif|webp|svg)$/i], without its end anchor. *)
Definition imageRe : re :=
  Seq (Chr ".")
      (Alt (LitI (lit "png"))
      (Alt (Seq (LitI (lit "jp")) (Seq (Opt (ChrI "e")) (ChrI "g")))
      (Alt (LitI (lit "gif"))
      (Alt (LitI (lit "webp"))
           (LitI (lit "svg")))))).

(** [/\/api\/?$/], without its end anchor. *)
Definition apiSuffixRe : re := Seq (Lit (lit "/api")) (Opt (Chr "/")).

(** The class [[A-Za-z0-9_.-]]. *)
Definition filename_char (c : ascii) : bool :=
  is_upper c || is_lower c || is_digit c ||
  Ascii.eqb c "_" || Ascii.eqb c "." || Ascii.eqb c "-".

(** [/^[A-Za-z0-9_.-]+$/], without its anchors. *)
Definition filenameRe : re := Plus (Class filename_char).

(** [(process.env.BACKEND_URL || '').replace(/\/api\/?$/, '')]; [env] is
    the value of the environment variable, [None] when it is not set. *)
Definition backendUrl (env : option str) : str :=
  replace_at_end apiSuffixRe (match env with Some s => s | None => [] end).

Definition media_item (base name : str) : MediaItem :=
  mkItem name (base ++ lit "/uploads/" ++ name).

(** [router.get('/')] *)
Definition router_get (env : option str) (w : World) : Response * World :=
  let base := backendUrl env in
  match readdir w with
  | (inr files, w') =>
      let images := map (media_item base) (filter (test_at_end imageRe) files) in
      (mkResponse 200 (SuccessData images), w')
  | (inl _, w') =>
      (mkResponse 500 (ErrorBody (lit "Failed to list media")), w')
  end.

(** An element of [req.files]: the file and the name it was stored under. *)
Record StoredFile : Type := mkStored { stored_file : File; stored_filename : str }.

(** The last handler of [router.post('/')]; [files] is [req.files], [None]
    when multer left it undefined. *)
Definition router_post (env : option str) (files : option (list StoredFile)) : Response :=
  let base := backendUrl env in
  let data := map (fun file => media_item base (stored_filename file))
                  (match files with Some l => l | None => [] end) in
  mkResponse 201 (SuccessData data).

(** [router.delete('/:filename')] *)
Definition router_delete (filename : str) (w : World) : Response * World :=
  if negb (test_anchored filenameRe filename) then
    (mkResponse 400 (ErrorBody (lit "Invalid filename")), w)
  else
    match unlink (Path.join_uploads filename) w with
    | (inr _, w') => (mkResponse 200 (SuccessMessage (lit "File deleted")), w')
    | (inl ENOENT, w') => (mkResponse 404 (ErrorBody (lit "File not found")), w')
    | (inl _, w') => (mkResponse 500 (ErrorBody (lit "Failed to delete media")), w')
    end.

(** ** The multipart pipeline *)

(** A file part of a request, with the clock and random values the namer
    draws when the part is stored. *)
Record Part : Type := mkPart {
  part_originalname : str;
  part_mimetype : str;
  part_size : N;
  part_now : N;
  part_rand : N
}.

(** Every part of [upload.array('images', 5)] carries that field name. *)
Definition file_of_part (p : Part) : File :=
  mkFile uploadMultiple_field (part_originalname p) (part_mimetype p) (part_size p).

Definition part_filename (p : Part) : str :=
  storage_filename (file_of_part p) (part_now p) (part_rand p).

(** Modelled from the spec: the ways section 4.3 lets a request fail, the
    outcome type of the multipart pipeline that is missing from the
    sources. *)
Inductive UploadFailure : Type :=
| FileTooLarge
| TooManyFiles
| NotAccepted (err : JsError)
| StorageFailure (e : Errno).

(** Modelled from the spec: the per-file checks of the missing pipeline
    (section 4.3, "each file at most 5 MiB; each file must pass the Upload
    Filter"), with [fileSize] and [fileFilter] as [upload.js] sets them. *)
Definition validatePart (p : Part) : option UploadFailure :=
  if (fileSize <? part_size p)%N then Some FileTooLarge
  else match fileFilter (file_of_part p) with
       | Reject err => Some (NotAccepted err)
       | Accept => None
       end.

(** Modelled from the spec: the missing pipeline checks every file; the
    first failure in arrival order is the one reported. *)
Fixpoint validateParts (parts : list Part) : option UploadFailure :=
  match parts with
  | [] => None
  | p :: rest =>
      match validatePart p with
      | Some failure => Some failure
      | None => validateParts rest
      end
  end.

(** Modelled from the spec: the count check of the missing pipeline
    (section 4.3, "at most 5 files per request"). *)
Definition validateBatch (parts : list Part) : option UploadFailure :=
  if uploadMultiple_maxCount <? length parts then Some TooManyFiles
  else validateParts parts.

(** Modelled from the spec: the write phase of the missing pipeline
    (section 4.3, "every accepted file is written to the storage directory
    under its Namer-generated filename"). *)
Fixpoint persistParts (parts : list Part) (w : World)
  : (Errno + list StoredFile) * World :=
  match parts with
  | [] => (inr [], w)
  | p :: rest =>
      match writeFile (part_filename p) w with
      | (inl e, w') => (inl e, w')
      | (inr _, w') =>
          match persistParts rest w' with
          | (inl e, w'') => (inl e, w'')
          | (inr stored, w'') =>
              (inr (mkStored (file_of_part p) (part_filename p) :: stored), w'')
          end
      end
  end.

(** Modelled from the spec: the multipart pipeline behind [uploadMultiple]
    ([multer]'s array middleware with disk storage) is a dependency and not
    part of the repository's sources, which only configure it with
    [storage], [limits], [fileFilter], the field name and the count.  After
    sections 4.2, 4.3 and 7 of the specification: at most 5 files, each at
    most 5 MiB, each accepted by the filter; a failure of any file aborts
    the batch before anything is persisted; otherwise every file is written
    under its namer-generated name and listed in [req.files]. *)
Definition uploadMultiple (parts : list Part) (w : World)
  : (UploadFailure + list StoredFile) * World :=
  match validateBatch parts with
  | Some failure => (inl failure, w)
  | None =>
      match persistParts parts w with
      | (inl e, w') => (inl (StorageFailure e), w')
      | (inr stored, w') => (inr stored, w')
      end
  end.

(** The directory after the parts of a request are written in turn. *)
Definition add_parts (parts : list Part) (es : list str) : list str :=
  fold_left (fun acc p => add_entry (part_filename p) acc) parts es.

(** A run of upload requests that all succeed: the responses of
    [router.post] and the world after the last one; [None] as soon as one
    request fails. *)
Fixpoint upload_requests (env : option str) (reqs : list (list Part)) (w : World)
  : option (list Response * World) :=
  match reqs with
  | [] => Some ([], w)
  | parts :: rest =>
      match uploadMultiple parts w with
      | (inl _, _) => None
      | (inr stored, w') =>
          match upload_requests env rest w' with
          | None => None
          | Some (responses, w'') =>
              Some (router_post env (Some stored) :: responses, w'')
          end
      end
  end.

(** The file names a response lists. *)
Definition response_filenames (r : Response) : list str :=
  match body r with
  | SuccessData data => map filename data
  | _ => []
  end.

(** ** Vocabulary of the specification *)

(** [sub] occurs in [s]. *)
Definition contains (sub s : str) : Prop :=
  exists pre post, s = pre ++ sub ++ post.

Definition endsWith (suffix s : str) : Prop := exists pre, s = pre ++ suffix.

(** The image-extension allowlist of the list operation. *)
Definition image_extensions : list str :=
  [lit "png"; lit "jpg"; lit "jpeg"; lit "gif"; lit "webp"; lit "svg"].

(** [e] is an allowlisted extension, whatever the case of its letters. *)
Definition allowlisted (e : str) : Prop :=
  exists a, In a image_extensions /\ eq_ignore_case e a.

(** [name] ends in a dot and an allowlisted extension. *)
Definition has_image_extension (name : str) : Prop :=
  exists stem e, name = stem ++ lit "." ++ e /\ allowlisted e.

(** [s] begins with [prefix]. *)
Definition beginsWith (prefix s : str) : Prop := exists rest, s = prefix ++ rest.

(** A name that cannot leave the directory it is joined to on the POSIX
    host [Path] models: no [".."] in it and no ["/"], the directory
    separator there. *)
Definition traversal_free (name : str) : Prop :=
  ~ contains (lit "..") name /\ ~ In "/"%char name.

(** An extension as [path.extname] returns it, dot included, that is on
    the allowlist. *)
Definition allowlisted_extension (ext : str) : Prop :=
  exists e, ext = lit "." ++ e /\ allowlisted e.

(** The namer as the specification words it: the extension lower-cased. *)
Definition storage_filename_as_specified (file : File) (now rand : N) : str :=
  fieldname file ++ lit "-" ++ number_to_string now ++ lit "-" ++
  number_to_string rand ++ toLowerCase (Path.extname (originalname file)).

(** The field name of [upload.single('image')]. *)
Definition uploadSingle_field : str := lit "image".

(** The directory separators: ["/"], the separator of the POSIX host the
    routes are modelled on, and the backslash of Windows hosts. *)
Definition is_separator (c : ascii) : bool :=
  Ascii.eqb c "/" || Ascii.eqb c "\".

Definition has_separator (name : str) : Prop :=
  exists c, In c name /\ is_separator c = true.

(** A path-traversal sequence in the sense of section 4.1 of the
    specification: [".."], or a separator. *)
Definition has_traversal (name : str) : Prop :=
  contains (lit "..") name \/ has_separator name.

(** The characters a delete request may name a file with. *)
Definition allowed_filename (name : str) : Prop :=
  name <> [] /\ Forall (fun c => filename_char c = true) name.

(** The file-system calls a delete request adds to the log. *)
Definition delete_calls (filename : str) (w : World) : list FsCall :=
  skipn (length (fslog w)) (fslog (snd (router_delete filename w))).

(** The delete handler called [unlink] on some path. *)
Definition reaches_unlink (filename : str) (w : World) : Prop :=
  exists t, In (CallUnlink t) (delete_calls filename w).

(** The shape of every result of [path.extname]: empty, or one dot and
    then neither dot nor ["/"]. *)
Definition extension_shape (ext : str) : Prop :=
  ext = [] \/
  exists rest, ext = "."%char :: rest /\ ~ In "."%char rest /\ ~ In "/"%char rest.

(** The loop invariant of [Path.extname_loop] before it reads index
    [n - 1], and what holds of the variables when the loop is left. *)
Definition scan_inv (path : str) (n : nat) (st : Path.scan) : Prop :=
  let sd := Path.startDot st in
  let e := Path.endPos st in
  ((e = -1 -> sd = -1) /\
   (e <> -1 -> Path.matchedSlash st = false) /\
   (e <> -1 ->
      Z.of_nat n <= e <= Z.of_nat (length path) /\
      (forall j, Z.of_nat n <= Z.of_nat j < e -> Path.charAt path j <> "/"%char) /\
      (sd = -1 ->
         forall j, Z.of_nat n <= Z.of_nat j < e -> Path.charAt path j <> "."%char) /\
      (sd <> -1 ->
         Z.of_nat n <= sd < e /\
         Path.charAt path (Z.to_nat sd) = "."%char /\
         forall j, sd < Z.of_nat j < e -> Path.charAt path j <> "."%char)))%Z.

Definition scan_final (path : str) (st : Path.scan) : Prop :=
  let sd := Path.startDot st in
  let e := Path.endPos st in
  (sd <> -1 ->
     0 <= sd < e /\ e <= Z.of_nat (length path) /\
     Path.charAt path (Z.to_nat sd) = "."%char /\
     (forall j, sd < Z.of_nat j < e -> Path.charAt path j <> "."%char) /\
     (forall j, sd <= Z.of_nat j < e -> Path.charAt path j <> "/"%char))%Z.

(** ** Further vocabulary *)

(** A character that is neither a dot nor ["/"]. *)
Definition plain_char (c : ascii) : bool :=
  negb (Ascii.eqb c "/" || Ascii.eqb c ".").

(** The variables of [Path.extname_loop] after it has read a plain
    character at index [i]. *)
Definition scan_plain (i : nat) (st : Path.scan) : Path.scan :=
  let st1 :=
    if (Path.endPos st =? -1)%Z
    then Path.mkScan (Path.startDot st) (Path.startPart st) (Z.of_nat i + 1)
                     false (Path.preDotState st)
    else st in
  if negb (Path.startDot st1 =? -1)%Z
  then Path.mkScan (Path.startDot st1) (Path.startPart st1) (Path.endPos st1)
                   (Path.matchedSlash st1) (-1)
  else st1.

(** What [storage.filename] puts before the extension. *)
Definition namer_prefix (file : File) (now rand : N) : str :=
  fieldname file ++ lit "-" ++ number_to_string now ++ lit "-" ++ number_to_string rand.

(** The data array of a response, empty for the other bodies. *)
Definition response_data (r : Response) : list MediaItem :=
  match body r with
  | SuccessData data => data
  | _ => []
  end.

(** ** server.js: the origin check of the CORS middleware *)

Definition allowedOrigins : list str :=
  [lit "http://localhost:3000"; lit "https://test1.we3vision.com"].

(** The cross mark that opens the error message (U+274C), one code unit in
    the source, kept here as the three bytes E2 9D 8C of its UTF-8 form. *)
Definition CROSS_MARK : str := map ascii_of_nat [226; 157; 140].

(** The [origin] option of [cors(...)]: [origin] is the Origin header of
    the request, [None] when there is none; the result is what the function
    passes to its callback. *)
Definition corsOrigin (origin : option str) : JsError + bool :=
  match origin with
  | None => inr true
  | Some o =>
      if str_eqb o [] || mem o allowedOrigins
      then inr true
      else inl (mkError false None (CROSS_MARK ++ lit " Not allowed by CORS: " ++ o))
  end.

(** * Properties *)

(** ** Strings *)

Lemma str_eqb_eq (a b : str) : str_eqb a b = true <-> a = b.
Proof.
  unfold str_eqb. destruct (list_eq_dec ascii_dec a b); split; congruence.
Qed.

Lemma str_eqb_refl (a : str) : str_eqb a a = true.
Proof. now apply str_eqb_eq. Qed.

Lemma str_eqb_neq (a b : str) : str_eqb a b = false <-> a <> b.
Proof.
  unfold str_eqb. destruct (list_eq_dec ascii_dec a b); split; congruence.
Qed.

Lemma startsWith_iff (prefix s : str) :
  startsWith prefix s = true <-> exists rest, s = prefix ++ rest.
Proof.
  revert s. induction prefix as [|p prefix IH]; intros s; simpl.
  - split; [intros _; now exists s | reflexivity].
  - destruct s as [|c s].
    + split; [discriminate | intros [rest H]; discriminate].
    + rewrite andb_true_iff, Ascii.eqb_eq, IH. split.
      * intros [-> [rest ->]]. now exists rest.
      * intros [rest H]. injection H as -> ->. split; [reflexivity | now exists rest].
Qed.

Lemma includes_iff (needle s : str) :
  includes needle s = true <-> exists pre post, s = pre ++ needle ++ post.
Proof.
  induction s as [|c s IH]; simpl.
  - rewrite orb_false_r, startsWith_iff. split.
    + intros [rest H]. exists [], rest. exact H.
    + intros [pre [post H]]. destruct pre; simpl in H.
      * now exists post.
      * discriminate.
  - rewrite orb_true_iff, startsWith_iff, IH. split.
    + intros [[rest H] | [pre [post H]]].
      * exists [], rest. exact H.
      * exists (c :: pre), post. simpl. now rewrite H.
    + intros [pre [post H]]. destruct pre as [|c' pre]; simpl in H.
      * left. now exists post.
      * right. injection H as _ H. now exists pre, post.
Qed.

(** ** The matcher decides the language of a pattern *)

Section RegexFacts.

Import Regex.

Lemma nullable_iff (r : re) : nullable r = true <-> lang r [].
Proof.
  split.
  - induction r; simpl; intros H; try discriminate.
    + constructor.
    + apply andb_true_iff in H as [H1 H2].
      change (@nil ascii) with (@nil ascii ++ []). constructor; auto.
    + apply orb_true_iff in H as [H | H]; [apply LAltL | apply LAltR]; auto.
    + constructor.
  - intros H. remember [] as s eqn:Hs.
    induction H; simpl; subst; try discriminate; auto.
    + apply app_eq_nil in Hs as [-> ->]. now rewrite IHlang1, IHlang2.
    + now rewrite IHlang.
    + rewrite IHlang by reflexivity. apply orb_true_r.
Qed.

Lemma deriv_sound (c : ascii) (r : re) :
  forall s, lang (deriv c r) s -> lang r (c :: s).
Proof.
  induction r; simpl; intros s H.
  - inversion H.
  - inversion H.
  - destruct (p c) eqn:Hp; inversion H; subst. now constructor.
  - destruct (nullable r1) eqn:Hn.
    + inversion H; subst.
      * inversion H3; subst.
        change (c :: s1 ++ s2) with ((c :: s1) ++ s2). constructor; auto.
      * change (c :: s) with ([] ++ c :: s). constructor; auto.
        now apply nullable_iff.
    + inversion H; subst.
      change (c :: s1 ++ s2) with ((c :: s1) ++ s2). constructor; auto.
  - inversion H; subst; [apply LAltL | apply LAltR]; auto.
  - inversion H; subst.
    change (c :: s1 ++ s2) with ((c :: s1) ++ s2). constructor; auto.
Qed.

Lemma deriv_complete (c : ascii) (r : re) (s0 : str) :
  lang r s0 -> forall t, s0 = c :: t -> lang (deriv c r) t.
Proof.
  induction 1; intros t Ht; simpl.
  - discriminate.
  - injection Ht as -> <-. rewrite H. constructor.
  - destruct s1 as [|c1 s1]; simpl in Ht.
    + subst s2. assert (Hn : nullable r1 = true) by now apply nullable_iff.
      rewrite Hn. apply LAltR. auto.
    + injection Ht as -> <-.
      destruct (nullable r1); [apply LAltL |]; constructor; auto.
  - apply LAltL. auto.
  - apply LAltR. auto.
  - discriminate.
  - destruct s1 as [|c1 s1]; simpl in Ht.
    + auto.
    + injection Ht as -> <-. constructor; auto.
Qed.

Lemma deriv_iff (c : ascii) (r : re) (s : str) :
  lang (deriv c r) s <-> lang r (c :: s).
Proof.
  split; [apply deriv_sound | intros H; eapply deriv_complete; eauto].
Qed.

Lemma matches_iff (r : re) (s : str) : matches r s = true <-> lang r s.
Proof.
  revert r. induction s as [|c s IH]; intros r; simpl.
  - apply nullable_iff.
  - rewrite IH. apply deriv_iff.
Qed.

Lemma test_at_end_iff (r : re) (s : str) :
  test_at_end r s = true <-> exists pre suf, s = pre ++ suf /\ lang r suf.
Proof.
  induction s as [|c s IH]; cbn [test_at_end].
  - rewrite orb_false_r, matches_iff. split.
    + intros H. now exists [], [].
    + intros [pre [suf [H L]]]. symmetry in H.
      apply app_eq_nil in H as [_ ->]. exact L.
  - rewrite orb_true_iff, matches_iff, IH. split.
    + intros [H | [pre [suf [-> L]]]].
      * now exists [], (c :: s).
      * now exists (c :: pre), suf.
    + intros [pre [suf [H L]]]. destruct pre as [|c' pre]; simpl in H.
      * left. now subst.
      * right. injection H as _ ->. now exists pre, suf.
Qed.

(** The cut of [replace_at_end] when the match is known to start after
    [pre] and nowhere before. *)
Lemma replace_at_end_cut (r : re) (pre suf : str) :
  lang r suf ->
  (forall p1 p2, pre = p1 ++ p2 -> p2 <> [] -> ~ lang r (p2 ++ suf)) ->
  replace_at_end r (pre ++ suf) = pre.
Proof.
  intros L. induction pre as [|c pre IH]; intros Hfirst; simpl.
  - destruct suf; simpl.
    + now destruct (nullable r).
    + apply matches_iff in L. simpl in L. now rewrite L.
  - destruct (matches (deriv c r) (pre ++ suf)) eqn:Hm.
    + exfalso. apply (Hfirst [] (c :: pre)); [reflexivity | discriminate |].
      apply matches_iff. exact Hm.
    + f_equal. apply IH. intros p1 p2 -> Hne.
      apply (Hfirst (c :: p1) p2); [reflexivity | exact Hne].
Qed.

Lemma replace_at_end_none (r : re) (s : str) :
  (forall p1 p2, s = p1 ++ p2 -> ~ lang r p2) ->
  replace_at_end r s = s.
Proof.
  induction s as [|c s IH]; intros Hno; simpl.
  - destruct (nullable r) eqn:Hn; [| reflexivity]. reflexivity.
  - destruct (matches (deriv c r) s) eqn:Hm.
    + exfalso. apply (Hno [] (c :: s)); [reflexivity |].
      apply matches_iff. exact Hm.
    + f_equal. apply IH. intros p1 p2 -> L.
      apply (Hno (c :: p1) p2); [reflexivity | exact L].
Qed.

End RegexFacts.

(** ** What the three patterns of the routes accept *)

Section Patterns.

Import Regex.

Lemma lang_Seq_iff (r1 r2 : re) (s : str) :
  lang (Seq r1 r2) s <-> exists s1 s2, s = s1 ++ s2 /\ lang r1 s1 /\ lang r2 s2.
Proof.
  split.
  - intros H. inversion H; subst. now exists s1, s2.
  - intros [s1 [s2 [-> [H1 H2]]]]. now constructor.
Qed.

Lemma lang_Alt_iff (r1 r2 : re) (s : str) :
  lang (Alt r1 r2) s <-> lang r1 s \/ lang r2 s.
Proof.
  split.
  - intros H. inversion H; subst; auto.
  - intros [H | H]; [apply LAltL | apply LAltR]; exact H.
Qed.

Lemma lang_Eps_iff (s : str) : lang Eps s <-> s = [].
Proof.
  split.
  - intros H. now inversion H.
  - intros ->. constructor.
Qed.

Lemma lang_Class_iff (p : ascii -> bool) (s : str) :
  lang (Class p) s <-> exists c, s = [c] /\ p c = true.
Proof.
  split.
  - intros H. inversion H; subst. now exists c.
  - intros [c [-> H]]. now constructor.
Qed.

Lemma lang_Opt_iff (r : re) (s : str) : lang (Opt r) s <-> lang r s \/ s = [].
Proof. unfold Opt. now rewrite lang_Alt_iff, lang_Eps_iff. Qed.

Lemma lang_Lit_iff (l s : str) : lang (Lit l) s <-> s = l.
Proof.
  revert s. induction l as [|c l IH]; intros s; simpl.
  - apply lang_Eps_iff.
  - rewrite lang_Seq_iff. split.
    + intros [s1 [s2 [-> [H1 H2]]]]. apply lang_Class_iff in H1 as [x [-> Hx]].
      apply Ascii.eqb_eq in Hx. apply IH in H2. now subst.
    + intros ->. exists [c], l. repeat split.
      * apply lang_Class_iff. exists c. split; [reflexivity | apply Ascii.eqb_refl].
      * now apply IH.
Qed.

Lemma lang_ChrI_iff (c : ascii) (s : str) :
  lang (ChrI c) s <-> eq_ignore_case s [c].
Proof.
  unfold ChrI, eq_ignore_case. rewrite lang_Class_iff. split.
  - intros [x [-> Hx]]. apply Ascii.eqb_eq in Hx. simpl. now rewrite Hx.
  - intros H. destruct s as [|x [|y s]]; simpl in H; try discriminate.
    injection H as H. exists x. split; [reflexivity |].
    apply Ascii.eqb_eq. exact H.
Qed.

Lemma eq_ignore_case_app (a1 a2 b1 b2 : str) :
  eq_ignore_case a1 b1 -> eq_ignore_case a2 b2 ->
  eq_ignore_case (a1 ++ a2) (b1 ++ b2).
Proof.
  unfold eq_ignore_case. intros H1 H2. now rewrite !map_app, H1, H2.
Qed.

Lemma eq_ignore_case_split (s b1 b2 : str) :
  eq_ignore_case s (b1 ++ b2) ->
  exists s1 s2, s = s1 ++ s2 /\ eq_ignore_case s1 b1 /\ eq_ignore_case s2 b2.
Proof.
  unfold eq_ignore_case. revert s. induction b1 as [|c b1 IH]; intros s H.
  - exists [], s. auto.
  - destruct s as [|x s]; simpl in H; [discriminate |].
    injection H as Hx H. destruct (IH s H) as [s1 [s2 [-> [H1 H2]]]].
    exists (x :: s1), s2. simpl. repeat split; auto. now rewrite Hx, H1.
Qed.

Lemma lang_LitI_iff (l s : str) : lang (LitI l) s <-> eq_ignore_case s l.
Proof.
  revert s. induction l as [|c l IH]; intros s; simpl.
  - rewrite lang_Eps_iff. unfold eq_ignore_case. split.
    + now intros ->.
    + destruct s; [reflexivity | discriminate].
  - rewrite lang_Seq_iff. split.
    + intros [s1 [s2 [-> [H1 H2]]]]. apply lang_ChrI_iff in H1. apply IH in H2.
      now apply (eq_ignore_case_app (b1 := [c])).
    + intros H. apply (@eq_ignore_case_split s [c] l) in H as [s1 [s2 [-> [H1 H2]]]].
      exists s1, s2. repeat split; [now apply lang_ChrI_iff | now apply IH].
Qed.

Lemma lang_Star_Class_iff (p : ascii -> bool) (s : str) :
  lang (Star (Class p)) s <-> Forall (fun c => p c = true) s.
Proof.
  split.
  - intros H. remember (Star (Class p)) as r eqn:Hr.
    induction H; try discriminate.
    + constructor.
    + injection Hr as ->. inversion H; subst. simpl. constructor; auto.
  - induction 1 as [|c s Hc _ IH].
    + constructor.
    + change (c :: s) with ([c] ++ s). constructor; [now constructor | exact IH].
Qed.

(** [/^[A-Za-z0-9_.-]+$/] accepts the non-empty strings of allowed
    characters. *)
Lemma filenameRe_iff (s : str) :
  test_anchored filenameRe s = true <-> allowed_filename s.
Proof.
  unfold test_anchored, filenameRe, Plus, allowed_filename.
  rewrite matches_iff, lang_Seq_iff. split.
  - intros [s1 [s2 [-> [H1 H2]]]]. apply lang_Class_iff in H1 as [c [-> Hc]].
    apply lang_Star_Class_iff in H2. split; [discriminate | now constructor].
  - intros [Hne H]. destruct s as [|c s]; [congruence |]. inversion H; subst.
    exists [c], s. repeat split.
    + now constructor.
    + now apply lang_Star_Class_iff.
Qed.

Lemma lang_jpeg_iff (s : str) :
  lang (Seq (LitI (lit "jp")) (Seq (Opt (ChrI "e")) (ChrI "g"))) s <->
  eq_ignore_case s (lit "jpg") \/ eq_ignore_case s (lit "jpeg").
Proof.
  rewrite lang_Seq_iff. split.
  - intros [s1 [s2 [-> [H1 H2]]]]. apply lang_LitI_iff in H1.
    apply lang_Seq_iff in H2 as [t1 [t2 [-> [H2 H3]]]].
    apply lang_ChrI_iff in H3. apply lang_Opt_iff in H2 as [H2 | ->].
    + right. apply lang_ChrI_iff in H2.
      apply (eq_ignore_case_app (b1 := lit "jp") (b2 := lit "eg")); [exact H1 |].
      now apply (eq_ignore_case_app (b1 := lit "e") (b2 := lit "g")).
    + left. now apply (eq_ignore_case_app (b1 := lit "jp") (b2 := lit "g")).
  - intros [H | H].
    + apply (@eq_ignore_case_split s (lit "jp") (lit "g")) in H
        as [s1 [s2 [-> [H1 H2]]]].
      exists s1, s2. repeat split; [now apply lang_LitI_iff |].
      apply lang_Seq_iff. exists [], s2. repeat split.
      * apply lang_Opt_iff. now right.
      * now apply lang_ChrI_iff.
    + apply (@eq_ignore_case_split s (lit "jp") (lit "eg")) in H
        as [s1 [s2 [-> [H1 H2]]]].
      apply (@eq_ignore_case_split s2 (lit "e") (lit "g")) in H2
        as [t1 [t2 [-> [H2 H3]]]].
      exists s1, (t1 ++ t2). repeat split; [now apply lang_LitI_iff |].
      apply lang_Seq_iff. exists t1, t2. repeat split.
      * apply lang_Opt_iff. left. now apply lang_ChrI_iff.
      * now apply lang_ChrI_iff.
Qed.

Lemma lang_imageRe_iff (s : str) :
  lang imageRe s <-> exists e, s = lit "." ++ e /\ allowlisted e.
Proof.
  unfold imageRe. rewrite lang_Seq_iff. split.
  - intros [s1 [s2 [-> [H1 H2]]]]. apply lang_Class_iff in H1 as [c [-> Hc]].
    apply Ascii.eqb_eq in Hc. subst c. exists s2. split; [reflexivity |].
    unfold allowlisted, image_extensions.
    repeat (apply lang_Alt_iff in H2 as [H2 | H2]).
    + apply lang_LitI_iff in H2. exists (lit "png"). simpl. auto.
    + apply lang_jpeg_iff in H2 as [H2 | H2].
      * exists (lit "jpg"). simpl. auto.
      * exists (lit "jpeg"). simpl. auto.
    + apply lang_LitI_iff in H2. exists (lit "gif"). simpl. auto 6.
    + apply lang_LitI_iff in H2. exists (lit "webp"). simpl. auto 7.
    + apply lang_LitI_iff in H2. exists (lit "svg"). simpl. auto 8.
  - intros [e [-> [a [Ha He]]]]. exists (lit "."), e. repeat split.
    + apply lang_Class_iff. exists "."%char. split; reflexivity.
    + unfold image_extensions in Ha. simpl in Ha.
      destruct Ha as [<- | [<- | [<- | [<- | [<- | [<- | []]]]]]].
      * apply LAltL. now apply lang_LitI_iff.
      * apply LAltR, LAltL. apply lang_jpeg_iff. now left.
      * apply LAltR, LAltL. apply lang_jpeg_iff. now right.
      * apply LAltR, LAltR, LAltL. now apply lang_LitI_iff.
      * apply LAltR, LAltR, LAltR, LAltL. now apply lang_LitI_iff.
      * apply LAltR, LAltR, LAltR, LAltR. now apply lang_LitI_iff.
Qed.

(** [/\.(png|jpe?g|gif|webp|svg)$/i] accepts the names that end in a dot
    and an allowlisted extension. *)
Lemma imageRe_iff (name : str) :
  test_at_end imageRe name = true <-> has_image_extension name.
Proof.
  rewrite test_at_end_iff. unfold has_image_extension. split.
  - intros [pre [suf [-> H]]]. apply lang_imageRe_iff in H as [e [-> He]].
    now exists pre, e.
  - intros [stem [e [-> He]]]. exists stem, (lit "." ++ e).
    split; [reflexivity |]. apply lang_imageRe_iff. now exists e.
Qed.

Lemma lang_apiSuffixRe_iff (s : str) :
  lang apiSuffixRe s <-> s = lit "/api" \/ s = lit "/api/".
Proof.
  unfold apiSuffixRe. rewrite lang_Seq_iff. split.
  - intros [s1 [s2 [-> [H1 H2]]]]. apply lang_Lit_iff in H1. subst s1.
    apply lang_Opt_iff in H2 as [H2 | ->].
    + apply lang_Class_iff in H2 as [c [-> Hc]]. apply Ascii.eqb_eq in Hc.
      subst c. now right.
    + now left.
  - intros [-> | ->].
    + exists (lit "/api"), []. repeat split.
      * now apply lang_Lit_iff.
      * apply lang_Opt_iff. now right.
    + exists (lit "/api"), (lit "/"). repeat split.
      * now apply lang_Lit_iff.
      * apply lang_Opt_iff. left. apply lang_Class_iff.
        exists "/"%char. split; reflexivity.
Qed.

End Patterns.

(** ** [path.extname] *)

Section Extname.

Import Path.

Lemma scan_inv_final (path : str) (n : nat) (st st' : scan) :
  startDot st' = startDot st -> endPos st' = endPos st ->
  scan_inv path n st -> scan_final path st'.
Proof.
  unfold scan_inv, scan_final. cbv zeta. intros -> -> [H0 [_ H1]] Hsd.
  assert (He : endPos st <> (-1)%Z) by (intros He; apply Hsd; auto).
  destruct (H1 He) as [Hb [Hsl [_ Hd]]]. destruct (Hd Hsd) as [Hr [Hc Hnd]].
  repeat split; try lia; auto. intros j Hj. apply Hsl. lia.
Qed.

Lemma extname_loop_final (path : str) :
  forall n st, n <= length path -> scan_inv path n st ->
               scan_final path (extname_loop path n st).
Proof.
  induction n as [|i IH]; intros st Hn Hinv.
  - simpl. now apply (scan_inv_final (n := 0) (st := st)).
  - cbn [extname_loop]. cbv zeta.
    destruct (Ascii.eqb_spec (charAt path i) "/"%char) as [Hslash | Hslash].
    + destruct (matchedSlash st) eqn:Hms; simpl.
      * apply IH; [lia |]. unfold scan_inv in *. cbv zeta in *.
        destruct Hinv as [H0 [Hm H1]].
        assert (He : endPos st = (-1)%Z).
        { destruct (Z.eq_dec (endPos st) (-1)) as [E | E]; [exact E |].
          specialize (Hm E). congruence. }
        repeat split; auto; intros; congruence.
      * now apply (scan_inv_final (n := S i) (st := st)).
    + apply IH; [lia |]. unfold scan_inv in *. cbv zeta in *.
      destruct Hinv as [H0 [Hm H1]].
      destruct (Z.eqb_spec (endPos st) (-1)) as [He | He].
      * specialize (H0 He).
        destruct (Ascii.eqb_spec (charAt path i) "."%char) as [Hdot | Hdot];
          simpl; rewrite ?H0; simpl; repeat split; intros;
          try lia; try congruence; try (rewrite Nat2Z.id; assumption);
          try (assert (j = i) by lia; congruence).
      * destruct (H1 He) as [Hb [Hsl [Hnd Hd]]]. specialize (Hm He).
        destruct (Ascii.eqb_spec (charAt path i) "."%char) as [Hdot | Hdot];
          destruct (Z.eqb_spec (startDot st) (-1)) as [Hsd | Hsd];
          simpl; try destruct (Z.eqb_spec (preDotState st) 1);
          simpl; try (destruct (Hd Hsd) as [Hr [Hc Hrest]]);
          repeat split; intros;
          try lia; try congruence; try assumption;
          try (rewrite Nat2Z.id; assumption);
          match goal with
          | |- charAt _ ?j <> _ =>
              destruct (Nat.eq_dec j i) as [-> | ?];
              first [ assumption | exfalso; lia | apply Hsl; lia
                    | apply Hnd; [assumption | lia] | apply Hrest; lia ]
          end.
Qed.

Lemma scan_inv_start (path : str) : scan_inv path (length path) scan0.
Proof.
  unfold scan_inv, scan0. simpl. repeat split; intros; congruence.
Qed.

Lemma skipn_charAt (path : str) (a : nat) :
  a < length path -> skipn a path = charAt path a :: skipn (S a) path.
Proof.
  revert a. induction path as [|c path IH]; intros a Ha; simpl in Ha.
  - lia.
  - destruct a as [|a]; [reflexivity |].
    change (skipn (S a) (c :: path)) with (skipn a path).
    rewrite IH by lia. reflexivity.
Qed.

Lemma In_slice_charAt (path : str) (a k : nat) (x : ascii) :
  In x (firstn k (skipn a path)) ->
  exists j, a <= j < a + k /\ charAt path j = x.
Proof.
  intros H. apply (In_nth _ _ "000"%char) in H as [n [Hn Hx]].
  rewrite length_firstn in Hn. rewrite nth_firstn in Hx.
  destruct (Nat.ltb_spec n k) as [Hk | Hk]; [| lia].
  rewrite nth_skipn in Hx. exists (a + n). split; [lia | exact Hx].
Qed.

(** The extension is empty, or a dot followed by neither dot nor ["/"]. *)
Lemma extname_shape (path : str) : extension_shape (extname path).
Proof.
  unfold extname. cbv zeta.
  pose proof (extname_loop_final (n := length path) (le_n _) (scan_inv_start path)) as Hf.
  set (st := extname_loop path (length path) scan0) in *.
  destruct (_ || _)%bool eqn:Hcond; [now left |]. right.
  apply orb_false_iff in Hcond as [Hcond _].
  apply orb_false_iff in Hcond as [Hcond _].
  apply orb_false_iff in Hcond as [Hsd _].
  apply Z.eqb_neq in Hsd.
  destruct (Hf Hsd) as [Hr [Hlen [Hc [Hnd Hns]]]].
  unfold slice.
  rewrite (@skipn_charAt path (Z.to_nat (startDot st))) by lia.
  replace (Z.to_nat (endPos st - startDot st))
    with (S (Z.to_nat (endPos st - startDot st) - 1)) by lia.
  cbn [firstn]. rewrite Hc.
  eexists. split; [reflexivity |]. split; intros Hin;
    apply In_slice_charAt in Hin as [j [Hj Hx]].
  - apply (Hnd j); [lia | exact Hx].
  - apply (Hns j); [lia | exact Hx].
Qed.

(** The extension is copied out of the path, character for character. *)
Lemma extname_factor (path : str) :
  exists pre post, path = pre ++ extname path ++ post.
Proof.
  unfold extname. cbv zeta.
  destruct (_ || _)%bool.
  - exists path, []. now rewrite app_nil_r.
  - unfold slice. eexists (firstn _ path), (skipn _ (skipn _ path)).
    now rewrite !firstn_skipn.
Qed.

(** The examples of Node's documentation of [path.extname]. *)
Example extname_documented :
  extname (lit "index.html") = lit ".html" /\
  extname (lit "index.coffee.md") = lit ".md" /\
  extname (lit "index.") = lit "." /\
  extname (lit "index") = [] /\
  extname (lit ".index") = [] /\
  extname (lit ".index.md") = lit ".md".
Proof. repeat split. Qed.

Example extname_of_paths :
  extname (lit "../../etc/passwd") = [] /\
  extname (lit "a/b.c/d") = [] /\
  extname (lit "dir/x.JPG//") = lit ".JPG" /\
  extname (lit "..") = [].
Proof. repeat split. Qed.

End Extname.

(** ** The storage namer *)

Lemma string_of_uint_digits (d : Decimal.uint) :
  Forall (fun c => is_digit c = true) (lit (NilEmpty.string_of_uint d)).
Proof.
  induction d; simpl; constructor; auto.
Qed.

Lemma number_to_string_digits (n : N) :
  Forall (fun c => is_digit c = true) (number_to_string n).
Proof.
  unfold number_to_string, NilZero.string_of_uint.
  destruct (N.to_uint n) eqn:E; try (rewrite <- E; apply string_of_uint_digits).
  simpl. constructor; auto.
Qed.

Lemma digits_no_char (c : ascii) (s : str) :
  is_digit c = false -> Forall (fun x => is_digit x = true) s -> ~ In c s.
Proof.
  intros Hc Hs Hin. rewrite Forall_forall in Hs. apply Hs in Hin. congruence.
Qed.

Lemma contains_count (c : ascii) (s : str) :
  contains [c; c] s -> 2 <= count_occ ascii_dec s c.
Proof.
  intros [pre [post ->]]. rewrite !count_occ_app. simpl.
  destruct (ascii_dec c c) as [_ | Hne]; [lia | congruence].
Qed.

Lemma extension_shape_count (ext : str) :
  extension_shape ext ->
  count_occ ascii_dec ext "."%char <= 1 /\ ~ In "/"%char ext.
Proof.
  intros [-> | [rest [-> [Hd Hs]]]].
  - simpl. split; [lia | tauto].
  - split.
    + rewrite count_occ_cons_eq by reflexivity.
      apply (count_occ_not_In ascii_dec) in Hd. lia.
    + intros [H | H]; [discriminate | auto].
Qed.

(** The generated name is a prefix free of dots and separators, followed by
    the extension. *)
Lemma storage_filename_prefix (file : File) (now rand : N) :
  ~ In "."%char (fieldname file) -> ~ In "/"%char (fieldname file) ->
  exists prefix,
    storage_filename file now rand = prefix ++ Path.extname (originalname file) /\
    ~ In "."%char prefix /\ ~ In "/"%char prefix.
Proof.
  intros Hd Hs. unfold storage_filename. cbv zeta.
  exists (fieldname file ++ lit "-" ++
          number_to_string now ++ lit "-" ++ number_to_string rand).
  split; [now rewrite <- !app_assoc |].
  pose proof (number_to_string_digits now) as Hn.
  pose proof (number_to_string_digits rand) as Hr.
  split; intros Hin; repeat (apply in_app_or in Hin as [Hin | Hin]);
    try (now auto);
    try (revert Hin; apply digits_no_char; [reflexivity | assumption]);
    simpl in Hin; destruct Hin as [Hin | []]; discriminate.
Qed.

(** ** The public base URL *)

Lemma backendUrl_unset : backendUrl None = [].
Proof. reflexivity. Qed.

Lemma backendUrl_api_slash (b : str) : backendUrl (Some (b ++ lit "/api/")) = b.
Proof.
  unfold backendUrl. apply replace_at_end_cut.
  - apply lang_apiSuffixRe_iff. now right.
  - intros p1 p2 _ Hne H. apply lang_apiSuffixRe_iff in H.
    destruct p2 as [|c p2]; [congruence |].
    destruct H as [H | H]; apply (f_equal (@length ascii)) in H;
      simpl in H; rewrite length_app in H; simpl in H; lia.
Qed.

Lemma backendUrl_api (b : str) : backendUrl (Some (b ++ lit "/api")) = b.
Proof.
  unfold backendUrl. apply replace_at_end_cut.
  - apply lang_apiSuffixRe_iff. now left.
  - intros p1 p2 _ Hne H. apply lang_apiSuffixRe_iff in H.
    destruct p2 as [|c p2]; [congruence |].
    destruct H as [H | H].
    + apply (f_equal (@length ascii)) in H.
      simpl in H; rewrite length_app in H; simpl in H; lia.
    + destruct p2 as [|c' p2].
      * simpl in H. discriminate.
      * apply (f_equal (@length ascii)) in H.
        simpl in H; rewrite length_app in H; simpl in H; lia.
Qed.

Lemma backendUrl_other (base : str) :
  ~ endsWith (lit "/api") base -> ~ endsWith (lit "/api/") base ->
  backendUrl (Some base) = base.
Proof.
  intros H1 H2. unfold backendUrl. apply replace_at_end_none.
  intros p1 p2 -> H. apply lang_apiSuffixRe_iff in H as [-> | ->].
  - apply H1. now exists p1.
  - apply H2. now exists p1.
Qed.

(** ** The upload filter *)

Lemma fileFilter_Accept_iff (file : File) :
  fileFilter file = Accept <-> beginsWith (lit "image/") (mimetype file).
Proof.
  unfold fileFilter, beginsWith. rewrite <- startsWith_iff.
  destruct (startsWith (lit "image/") (mimetype file)); split;
    congruence || discriminate.
Qed.

Lemma fileFilter_Reject_iff (file : File) :
  fileFilter file = Reject (mkError false None NOT_AN_IMAGE) <->
  ~ beginsWith (lit "image/") (mimetype file).
Proof.
  rewrite <- fileFilter_Accept_iff. unfold fileFilter.
  destruct (startsWith (lit "image/") (mimetype file)); split;
    congruence || discriminate || tauto.
Qed.

Lemma fileFilter_Reject_error (file : File) (err : JsError) :
  fileFilter file = Reject err -> err = mkError false None NOT_AN_IMAGE.
Proof.
  unfold fileFilter. destruct (startsWith (lit "image/") (mimetype file));
    [discriminate | congruence].
Qed.

(** * The claims of the specification *)

(** C3. The upload filter accepts a file exactly when its declared content
    type begins with ["image/"]: such a file is accepted, any other file is
    rejected with the not-an-image error.  The filter is a function of the
    file alone, so nothing else is read or changed. *)
Theorem fileFilter_accepts_exactly_images (file : File) :
  (fileFilter file = Accept <-> beginsWith (lit "image/") (mimetype file)) /\
  (fileFilter file = Reject (mkError false None NOT_AN_IMAGE) <->
   ~ beginsWith (lit "image/") (mimetype file)) /\
  (forall err, fileFilter file = Reject err -> message err = NOT_AN_IMAGE).
Proof.
  split; [apply fileFilter_Accept_iff |]. split; [apply fileFilter_Reject_iff |].
  intros err H. apply fileFilter_Reject_error in H. now subst.
Qed.

(** C5. Whatever original name the client sends, the name the storage
    namer generates under the field identifier of either upload middleware
    contains no [".."] and no ["/"], the directory separator. *)
Theorem storage_filename_traversal_free
  (original mime : str) (sz now rand : N) :
  traversal_free (storage_filename (mkFile uploadMultiple_field original mime sz) now rand) /\
  traversal_free (storage_filename (mkFile uploadSingle_field original mime sz) now rand).
Proof.
  assert (G : forall field, ~ In "."%char field -> ~ In "/"%char field ->
            traversal_free (storage_filename (mkFile field original mime sz) now rand)).
  { intros field Hd Hs.
    destruct (@storage_filename_prefix (mkFile field original mime sz) now rand Hd Hs)
      as [prefix [-> [Hpd Hps]]].
    destruct (extension_shape_count (extname_shape original)) as [Hc Hsl].
    cbn [originalname]. split.
    - intros H. apply contains_count in H. rewrite count_occ_app in H.
      apply (count_occ_not_In ascii_dec) in Hpd. lia.
    - intros H. apply in_app_or in H as [H | H]; auto. }
  split; apply G; simpl; intuition discriminate.
Qed.

(** C6, as the specification words it, fails: an upper-case extension stays
    upper-case in the generated name. *)
Lemma storage_filename_keeps_upper_case :
  let file := mkFile uploadMultiple_field (lit "PHOTO.PNG") (lit "image/png") 2048 in
  storage_filename file 1700000000000 42 = lit "images-1700000000000-42.PNG" /\
  storage_filename file 1700000000000 42 <>
  storage_filename_as_specified file 1700000000000 42.
Proof.
  split; [reflexivity |]. vm_compute. discriminate.
Qed.

(** C6, amended. The generated name is the field identifier, ["-"], the
    timestamp, ["-"], the random integer and the extension of the original
    name; the extension is copied from the original name as it is, so the
    name is the one the specification words exactly when that extension
    has no upper-case letter. *)
Theorem storage_filename_is_concatenation (file : File) (now rand : N) :
  storage_filename file now rand =
    fieldname file ++ lit "-" ++ number_to_string now ++ lit "-" ++
    number_to_string rand ++ Path.extname (originalname file) /\
  contains (Path.extname (originalname file)) (originalname file) /\
  (storage_filename file now rand = storage_filename_as_specified file now rand <->
   toLowerCase (Path.extname (originalname file)) = Path.extname (originalname file)).
Proof.
  assert (E : storage_filename file now rand =
    fieldname file ++ lit "-" ++ number_to_string now ++ lit "-" ++
    number_to_string rand ++ Path.extname (originalname file)).
  { unfold storage_filename. cbv zeta. now rewrite <- !app_assoc. }
  split; [exact E |]. split; [apply extname_factor |].
  rewrite E. unfold storage_filename_as_specified. split.
  - intros H. repeat apply app_inv_head in H. now symmetry.
  - intros ->. reflexivity.
Qed.

(** C8. When the uploads directory can be read, the list operation answers
    200 with one [{filename, url}] object for each directory entry whose
    name ends in a dot and one of png, jpg, jpeg, gif, webp, svg in any
    case, in directory order, and for no other entry; the url is the
    public base URL without a trailing ["/api"] or ["/api/"], then
    ["/uploads/"], then the file name. *)
Theorem router_get_lists_images (env : option str) (entries : list str) (log : list FsCall) :
  exists items base,
    fst (router_get env (mkWorld (Some entries) log)) = mkResponse 200 (SuccessData items) /\
    base = backendUrl env /\
    items = map (fun name => mkItem name (base ++ lit "/uploads/" ++ name))
                (filter (test_at_end imageRe) entries) /\
    (forall name, test_at_end imageRe name = true <-> has_image_extension name) /\
    (forall item, In item items <->
       exists name, In name entries /\ has_image_extension name /\
                    item = mkItem name (base ++ lit "/uploads/" ++ name)) /\
    (env = None -> base = []) /\
    (forall b, env = Some (b ++ lit "/api") -> base = b) /\
    (forall b, env = Some (b ++ lit "/api/") -> base = b) /\
    (forall b, env = Some b -> ~ endsWith (lit "/api") b ->
               ~ endsWith (lit "/api/") b -> base = b).
Proof.
  eexists. exists (backendUrl env).
  split; [reflexivity |]. split; [reflexivity |]. split; [reflexivity |].
  split; [apply imageRe_iff |]. split.
  - intros item. rewrite in_map_iff. split.
    + intros [name [<- Hin]]. apply filter_In in Hin as [Hin Ht].
      exists name. repeat split; auto. now apply imageRe_iff.
    + intros [name [Hin [He ->]]]. exists name. split; [reflexivity |].
      apply filter_In. split; [exact Hin | now apply imageRe_iff].
  - repeat split.
    + now intros ->.
    + intros b ->. apply backendUrl_api.
    + intros b ->. apply backendUrl_api_slash.
    + intros b ->. apply backendUrl_other.
Qed.

(** C10. An upload request without file parts, whether multer leaves
    [req.files] undefined or sets it to the empty array, is answered 201
    with an empty data array; the handler answers 201 whatever the files. *)
Theorem router_post_without_files (env : option str) :
  router_post env None = mkResponse 201 (SuccessData []) /\
  router_post env (Some []) = mkResponse 201 (SuccessData []) /\
  (forall files, status (router_post env files) = 201).
Proof.
  repeat split.
Qed.

(** ** Delete: validation comes before the file system *)

Lemma router_delete_invalid (filename : str) (w : World) :
  ~ allowed_filename filename ->
  router_delete filename w = (mkResponse 400 (ErrorBody (lit "Invalid filename")), w).
Proof.
  intros H. unfold router_delete.
  destruct (test_anchored filenameRe filename) eqn:E; [| reflexivity].
  apply filenameRe_iff in E. contradiction.
Qed.

Lemma delete_calls_invalid (filename : str) (w : World) :
  ~ allowed_filename filename -> delete_calls filename w = [].
Proof.
  intros H. unfold delete_calls. rewrite (router_delete_invalid w H).
  apply skipn_all.
Qed.

Lemma separator_not_allowed (filename : str) :
  has_separator filename -> ~ allowed_filename filename.
Proof.
  intros [c [Hin Hc]] [_ Hall]. rewrite Forall_forall in Hall.
  specialize (Hall c Hin). unfold is_separator in Hc.
  apply orb_true_iff in Hc as [Hc | Hc]; apply Ascii.eqb_eq in Hc; subst c;
    discriminate.
Qed.

Lemma bad_char_not_allowed (filename : str) :
  (exists c, In c filename /\ filename_char c = false) -> ~ allowed_filename filename.
Proof.
  intros [c [Hin Hc]] [_ Hall]. rewrite Forall_forall in Hall.
  specialize (Hall c Hin). congruence.
Qed.

(** After validation [path.join] stays at the uploads directory or one
    level above it. *)
Lemma join_uploads_allowed (filename : str) :
  allowed_filename filename ->
  (filename = lit "." /\ Path.join_uploads filename = Path.UploadsDir) \/
  (filename = lit ".." /\ Path.join_uploads filename = Path.UploadsParent) \/
  Path.join_uploads filename = Path.InUploads filename.
Proof.
  intros [Hne Hall]. unfold Path.join_uploads.
  destruct (existsb (Ascii.eqb "/"%char) filename) eqn:E.
  - apply existsb_exists in E as [c [Hin Hc]]. apply Ascii.eqb_eq in Hc. subst c.
    rewrite Forall_forall in Hall. specialize (Hall _ Hin). discriminate.
  - destruct (str_eqb filename []) eqn:E0.
    { apply str_eqb_eq in E0. contradiction. }
    destruct (str_eqb filename (lit ".")) eqn:E1.
    { apply str_eqb_eq in E1. now left. }
    destruct (str_eqb filename (lit "..")) eqn:E2.
    { apply str_eqb_eq in E2. right. now left. }
    right. now right.
Qed.

(** C2, as the specification words it, fails: a name may contain [".."]
    and still be made of allowed characters only.  ["logo..png"] is such a
    file name and is deleted; [".."] itself is another, for which the
    handler calls [unlink] on the parent of the uploads directory. *)
Lemma router_delete_dotdot_reaches_unlink :
  let w := mkWorld (Some [lit "logo..png"]) [] in
  has_traversal (lit "logo..png") /\
  reaches_unlink (lit "logo..png") w /\
  fst (router_delete (lit "logo..png") w) =
    mkResponse 200 (SuccessMessage (lit "File deleted")) /\
  has_traversal (lit "..") /\
  reaches_unlink (lit "..") w /\
  delete_calls (lit "..") w = [CallUnlink Path.UploadsParent].
Proof.
  repeat split.
  - left. now exists (lit "logo"), (lit "png").
  - exists (Path.InUploads (lit "logo..png")). vm_compute. now left.
  - left. now exists [], [].
  - exists Path.UploadsParent. vm_compute. now left.
Qed.

(** C2, amended. A delete request whose file name has a character outside
    letters, digits, underscore, hyphen and dot, in particular a path
    separator, is answered 400 "Invalid filename" with the file system
    neither read nor changed; no file name with a path separator reaches
    the [unlink] call, only non-empty names of allowed characters do. *)
Theorem router_delete_validates_first (filename : str) (w : World) :
  ((exists c, In c filename /\ filename_char c = false) ->
     router_delete filename w =
       (mkResponse 400 (ErrorBody (lit "Invalid filename")), w) /\
     delete_calls filename w = []) /\
  (has_separator filename -> exists c, In c filename /\ filename_char c = false) /\
  (reaches_unlink filename w -> allowed_filename filename /\ ~ has_separator filename).
Proof.
  split; [| split].
  - intros H. apply bad_char_not_allowed in H.
    split; [now apply router_delete_invalid | now apply delete_calls_invalid].
  - intros [c [Hin Hc]]. exists c. split; [exact Hin |].
    unfold is_separator in Hc.
    apply orb_true_iff in Hc as [Hc | Hc]; apply Ascii.eqb_eq in Hc; now subst c.
  - intros [t Ht].
    assert (Ha : allowed_filename filename).
    { destruct (test_anchored filenameRe filename) eqn:E.
      - now apply filenameRe_iff.
      - assert (Hn : ~ allowed_filename filename).
        { intros Ha. apply filenameRe_iff in Ha. congruence. }
        rewrite (delete_calls_invalid w Hn) in Ht. destruct Ht. }
    split; [exact Ha |]. intros Hs. now apply separator_not_allowed in Hs.
Qed.

Lemma router_delete_validates_first_witness :
  let w := mkWorld (Some [lit "passwd"]) [] in
  router_delete (lit "../etc/passwd") w =
    (mkResponse 400 (ErrorBody (lit "Invalid filename")), w) /\
  delete_calls (lit "../etc/passwd") w = [].
Proof.
  intros w.
  apply (proj1 (router_delete_validates_first (lit "../etc/passwd") w)).
  exists "/"%char. split; [simpl; tauto | reflexivity].
Defined.

(** ** The upload error handler *)

(** C7, as the specification words it, fails in its last part: an error
    the upload handler passes on is answered 403, not 500, by the
    application's error handler when its message contains "CORS". *)
Lemma upload_error_with_cors_is_403 :
  let err := mkError false None (lit "blocked by CORS") in
  handleUploadError err = Next err /\
  upload_error_response err = mkResponse 403 (ErrorBody (lit "blocked by CORS")) /\
  status (upload_error_response err) <> 500.
Proof.
  repeat split. vm_compute. discriminate.
Qed.

(** C7, amended. The upload error handler answers 400 with a structured
    error body for a multer error with code LIMIT_FILE_SIZE ("File too
    large. Maximum size is 5MB."), for a multer error with code
    LIMIT_FILE_COUNT ("Too many files. Maximum is 5 files.") and, failing
    these, for any error whose message is the filter's not-an-image
    message, which it echoes.  Any other error is passed on as it is, and
    the application's error handler answers 403 with the error's message
    when that message contains "CORS" and the generic 500 "Something went
    wrong!" otherwise. *)
Theorem handleUploadError_cases (err : JsError) :
  (isMulterError err = true -> code err = Some (lit "LIMIT_FILE_SIZE") ->
     handleUploadError err =
       Respond (mkResponse 400 (ErrorBody (lit "File too large. Maximum size is 5MB.")))) /\
  (isMulterError err = true -> code err = Some (lit "LIMIT_FILE_COUNT") ->
     handleUploadError err =
       Respond (mkResponse 400 (ErrorBody (lit "Too many files. Maximum is 5 files.")))) /\
  (forall file rejection, fileFilter file = Reject rejection ->
     handleUploadError rejection =
       Respond (mkResponse 400 (ErrorBody (lit "Not an image! Please upload an image.")))) /\
  ((isMulterError err = false \/
    (code err <> Some (lit "LIMIT_FILE_SIZE") /\ code err <> Some (lit "LIMIT_FILE_COUNT"))) ->
   (message err = NOT_AN_IMAGE ->
      handleUploadError err = Respond (mkResponse 400 (ErrorBody NOT_AN_IMAGE))) /\
   (message err <> NOT_AN_IMAGE ->
      handleUploadError err = Next err /\
      (contains (lit "CORS") (message err) ->
         upload_error_response err = mkResponse 403 (ErrorBody (message err))) /\
      (~ contains (lit "CORS") (message err) ->
         upload_error_response err =
           mkResponse 500 (ErrorBody (lit "Something went wrong!"))))).
Proof.
  split; [| split; [| split]].
  - intros Hm Hc. unfold handleUploadError, code_is. now rewrite Hm, Hc.
  - intros Hm Hc. unfold handleUploadError, code_is. now rewrite Hm, Hc.
  - intros file rejection H. apply fileFilter_Reject_error in H. now subst.
  - intros Hother.
    assert (E : handleUploadError err =
                if str_eqb (message err) NOT_AN_IMAGE
                then Respond (mkResponse 400 (ErrorBody (message err)))
                else Next err).
    { unfold handleUploadError, code_is.
      destruct Hother as [-> | [H1 H2]]; [reflexivity |].
      destruct (isMulterError err); [| reflexivity].
      destruct (code err) as [k |]; [| reflexivity].
      destruct (str_eqb k (lit "LIMIT_FILE_SIZE")) eqn:E1.
      { apply str_eqb_eq in E1. congruence. }
      destruct (str_eqb k (lit "LIMIT_FILE_COUNT")) eqn:E2.
      { apply str_eqb_eq in E2. congruence. }
      reflexivity. }
    split.
    + intros Hmsg. rewrite E, Hmsg. now rewrite str_eqb_refl.
    + intros Hmsg. apply str_eqb_neq in Hmsg.
      assert (E' : handleUploadError err = Next err) by now rewrite E, Hmsg.
      split; [exact E' |]. unfold upload_error_response, errorHandler.
      rewrite E'. split.
      * intros Hc. apply includes_iff in Hc. now rewrite Hc.
      * intros Hc. destruct (includes (lit "CORS") (message err)) eqn:Hi;
          [| reflexivity].
        apply includes_iff in Hi. contradiction.
Qed.

(** A sixth file under the field of [upload.array('images', 5)] is reported
    by multer with the code LIMIT_UNEXPECTED_FILE; the handler has no case
    for it, so the request is answered with the generic 500. *)
Lemma upload_error_unexpected_file :
  let err := mkError true (Some (lit "LIMIT_UNEXPECTED_FILE")) (lit "Unexpected field") in
  handleUploadError err = Next err /\
  upload_error_response err = mkResponse 500 (ErrorBody (lit "Something went wrong!")).
Proof.
  split; reflexivity.
Qed.

(** ** The multipart pipeline *)

Lemma validatePart_invalid (p : Part) :
  (fileSize < part_size p)%N \/ ~ beginsWith (lit "image/") (part_mimetype p) ->
  validatePart p = Some FileTooLarge \/
  validatePart p = Some (NotAccepted (mkError false None NOT_AN_IMAGE)).
Proof.
  intros H. unfold validatePart.
  destruct (N.ltb_spec fileSize (part_size p)) as [Hlt | Hge]; [now left |].
  destruct H as [H | H]; [lia |]. right.
  apply (fileFilter_Reject_iff (file_of_part p)) in H. now rewrite H.
Qed.

Lemma validateParts_invalid (parts : list Part) :
  (exists p, In p parts /\
     ((fileSize < part_size p)%N \/ ~ beginsWith (lit "image/") (part_mimetype p))) ->
  validateParts parts = Some FileTooLarge \/
  validateParts parts = Some (NotAccepted (mkError false None NOT_AN_IMAGE)).
Proof.
  induction parts as [|q parts IH]; intros [p [Hin Hbad]]; simpl.
  - destruct Hin.
  - destruct (validatePart q) as [failure |] eqn:Hq.
    + assert (Hq' : validatePart q = Some FileTooLarge \/
                    validatePart q = Some (NotAccepted (mkError false None NOT_AN_IMAGE))).
      { unfold validatePart in *.
        destruct (fileSize <? part_size q)%N; [now left |].
        unfold fileFilter in *.
        destruct (startsWith (lit "image/") (mimetype (file_of_part q)));
          [discriminate | now right]. }
      rewrite Hq in Hq'. exact Hq'.
    + destruct Hin as [-> | Hin].
      * apply validatePart_invalid in Hbad. rewrite Hq in Hbad.
        destruct Hbad; discriminate.
      * apply IH. now exists p.
Qed.

(** C1. In the pipeline as the specification describes it, a request in
    which some file is over 5 MiB or not of an image content type, or that
    carries more than 5 files, fails as a whole and leaves the file system
    exactly as it was: nothing of the request is persisted, the files that
    pass validation included. *)
Theorem uploadMultiple_all_or_nothing (parts : list Part) (w : World)
  (Hfail : uploadMultiple_maxCount < length parts \/
           exists p, In p parts /\
             ((fileSize < part_size p)%N \/
              ~ beginsWith (lit "image/") (part_mimetype p))) :
  exists failure,
    uploadMultiple parts w = (inl failure, w) /\
    (failure = TooManyFiles \/ failure = FileTooLarge \/
     failure = NotAccepted (mkError false None NOT_AN_IMAGE)).
Proof.
  unfold uploadMultiple, validateBatch.
  destruct (Nat.ltb_spec uploadMultiple_maxCount (length parts)) as [Hlt | Hge].
  - exists TooManyFiles. auto.
  - destruct Hfail as [Hfail | Hfail]; [lia |].
    apply validateParts_invalid in Hfail as [-> | ->]; eexists; eauto.
Qed.

Lemma uploadMultiple_all_or_nothing_witness :
  let small := mkPart (lit "a.png") (lit "image/png") 1024 1 2 in
  let large := mkPart (lit "b.png") (lit "image/png") (6 * 1024 * 1024) 3 4 in
  let w := mkWorld (Some [lit "images-0-0.png"]) [] in
  exists failure, uploadMultiple [small; large] w = (inl failure, w).
Proof.
  intros small large w.
  destruct (@uploadMultiple_all_or_nothing [small; large] w) as [failure [H _]].
  - right. exists large. split; [simpl; tauto | left; reflexivity].
  - now exists failure.
Defined.

(** ** Listing after uploads *)

Lemma allowlisted_no_dot (e : str) : allowlisted e -> ~ In "."%char e.
Proof.
  intros [a [Ha He]] Hin. unfold eq_ignore_case in He.
  apply (in_map to_upper) in Hin. rewrite He in Hin.
  unfold image_extensions in Ha. simpl in Ha.
  destruct Ha as [<- | [<- | [<- | [<- | [<- | [<- | []]]]]]];
    vm_compute in Hin; intuition discriminate.
Qed.

Lemma last_dot_unique (a b c d : str) :
  a ++ "."%char :: b = c ++ "."%char :: d ->
  ~ In "."%char b -> ~ In "."%char d -> a = c /\ b = d.
Proof.
  revert c. induction a as [|x a IH]; intros c H Hb Hd.
  - destruct c as [|y c]; simpl in H.
    + injection H as ->. auto.
    + injection H as _ H. exfalso. apply Hb. rewrite H.
      apply in_or_app. right. now left.
  - destruct c as [|y c]; simpl in H.
    + injection H as _ H. exfalso. apply Hd. rewrite <- H.
      apply in_or_app. right. now left.
    + injection H as -> H. destruct (IH c H Hb Hd) as [-> ->]. auto.
Qed.

(** A generated name passes the extension filter of the list operation
    exactly when the extension of the original name is on the allowlist. *)
Lemma part_filename_listed_iff (p : Part) :
  test_at_end imageRe (part_filename p) = true <->
  allowlisted_extension (Path.extname (part_originalname p)).
Proof.
  rewrite imageRe_iff. unfold part_filename.
  destruct (@storage_filename_prefix (file_of_part p) (part_now p) (part_rand p))
    as [prefix [-> [Hpd _]]].
  { simpl. intuition discriminate. }
  { simpl. intuition discriminate. }
  cbn [file_of_part originalname].
  unfold has_image_extension, allowlisted_extension. split.
  - intros [stem [e [H He]]]. exists e. split; [| exact He].
    pose proof (allowlisted_no_dot He) as Hed.
    destruct (extname_shape (part_originalname p)) as [E | [rest [E [Hrd _]]]];
      rewrite E in *.
    + exfalso. apply Hpd. rewrite app_nil_r in H. rewrite H.
      apply in_or_app. right. now left.
    + destruct (@last_dot_unique prefix rest stem e H Hrd Hed) as [_ ->].
      reflexivity.
  - intros [e [-> He]]. now exists prefix, e.
Qed.

Lemma mem_false_iff (name : str) (es : list str) : mem name es = false <-> ~ In name es.
Proof.
  unfold mem. split.
  - intros H Hin. assert (E : existsb (str_eqb name) es = true).
    { apply existsb_exists. exists name. split; [exact Hin | apply str_eqb_refl]. }
    congruence.
  - intros H. destruct (existsb (str_eqb name) es) eqn:E; [| reflexivity].
    apply existsb_exists in E as [x [Hin Hx]]. apply str_eqb_eq in Hx. now subst.
Qed.

Lemma add_parts_fresh (parts : list Part) :
  forall es, NoDup (es ++ map part_filename parts) ->
             add_parts parts es = es ++ map part_filename parts.
Proof.
  unfold add_parts. induction parts as [|p parts IH]; intros es Hnd; simpl.
  - now rewrite app_nil_r.
  - simpl in Hnd. pose proof (NoDup_remove_2 _ _ _ Hnd) as Hfresh.
    assert (Hes : ~ In (part_filename p) es).
    { intros H. apply Hfresh. apply in_or_app. now left. }
    unfold add_entry at 2. apply mem_false_iff in Hes. rewrite Hes.
    rewrite IH; rewrite <- app_assoc; simpl; [reflexivity | exact Hnd].
Qed.

Lemma persistParts_present (parts : list Part) :
  forall es log, exists log',
    persistParts parts (mkWorld (Some es) log) =
      (inr (map (fun p => mkStored (file_of_part p) (part_filename p)) parts),
       mkWorld (Some (add_parts parts es)) log').
Proof.
  induction parts as [|p parts IH]; intros es log; simpl.
  - now exists log.
  - destruct (IH (add_entry (part_filename p) es)
                 (log ++ [CallWrite (part_filename p)])) as [log' E].
    exists log'. unfold writeFile, logged. cbn [uploads fslog].
    now rewrite E.
Qed.

Lemma uploadMultiple_present (parts : list Part) (es : list str) (log : list FsCall)
      (stored : list StoredFile) (w : World) :
  uploadMultiple parts (mkWorld (Some es) log) = (inr stored, w) ->
  map stored_filename stored = map part_filename parts /\
  exists log', w = mkWorld (Some (add_parts parts es)) log'.
Proof.
  unfold uploadMultiple. destruct (validateBatch parts); [discriminate |].
  destruct (persistParts_present parts es log) as [log' E]. rewrite E.
  intros H. injection H as <- <-. split.
  - rewrite map_map. reflexivity.
  - now exists log'.
Qed.

Lemma response_filenames_post (env : option str) (stored : list StoredFile) :
  response_filenames (router_post env (Some stored)) = map stored_filename stored.
Proof.
  unfold response_filenames, router_post. cbn [body]. rewrite map_map. reflexivity.
Qed.

Lemma upload_requests_present (env : option str) (reqs : list (list Part)) :
  forall es log responses w,
    upload_requests env reqs (mkWorld (Some es) log) = Some (responses, w) ->
    concat (map response_filenames responses) = map part_filename (concat reqs) /\
    length responses = length reqs /\
    exists log', w = mkWorld (Some (add_parts (concat reqs) es)) log'.
Proof.
  induction reqs as [|parts reqs IH]; intros es log responses w H; simpl in H.
  - injection H as <- <-. repeat split. now exists log.
  - destruct (uploadMultiple parts (mkWorld (Some es) log)) as [[failure | stored] w1] eqn:E1;
      [discriminate |].
    apply uploadMultiple_present in E1 as [Hnames [log1 ->]].
    destruct (upload_requests env reqs _) as [[responses' w2] |] eqn:E2; [| discriminate].
    injection H as <- <-.
    apply IH in E2 as [Hrest [Hlen [log2 ->]]].
    simpl. rewrite response_filenames_post, Hnames, Hrest, map_app, Hlen.
    repeat split. exists log2. unfold add_parts. now rewrite fold_left_app.
Qed.

Lemma filter_all (A : Type) (f : A -> bool) (l : list A) :
  Forall (fun x => f x = true) l -> filter f l = l.
Proof.
  induction 1 as [|x l Hx _ IH]; simpl; [reflexivity |]. now rewrite Hx, IH.
Qed.

(** C4, as the specification words it, fails: a file the filter accepts
    can get a name the list operation leaves out, so that one successful
    upload request is followed by an empty listing. *)
Lemma accepted_upload_not_listed :
  let p := mkPart (lit "notes.txt") (lit "image/png") 10 1 2 in
  let w0 := mkWorld (Some []) [] in
  fileFilter (file_of_part p) = Accept /\
  test_at_end imageRe (part_filename p) = false /\
  exists w,
    upload_requests None [[p]] w0 =
      Some ([mkResponse 201
               (SuccessData [mkItem (lit "images-1-2.txt")
                                    (lit "/uploads/images-1-2.txt")])], w) /\
    fst (router_get None w) = mkResponse 200 (SuccessData []).
Proof.
  split; [reflexivity |]. split; [reflexivity |].
  eexists. split; reflexivity.
Qed.

(** C4, amended. Listing an empty directory returns an empty collection.
    A name the namer generates passes the extension filter of the list
    operation exactly when the extension of the original name is on the
    image allowlist, in any case.  After a run of successful upload
    requests that starts from an empty directory, in which every file has
    such an extension and the generated names are pairwise different, the
    list operation returns one entry for each uploaded file, and their file
    names are the ones the upload responses returned. *)
Theorem listing_after_uploads (env : option str) (log : list FsCall) :
  fst (router_get env (mkWorld (Some []) log)) = mkResponse 200 (SuccessData []) /\
  (forall p, test_at_end imageRe (part_filename p) = true <->
             allowlisted_extension (Path.extname (part_originalname p))) /\
  (forall reqs responses w,
     upload_requests env reqs (mkWorld (Some []) log) = Some (responses, w) ->
     NoDup (map part_filename (concat reqs)) ->
     Forall (fun p => allowlisted_extension (Path.extname (part_originalname p)))
            (concat reqs) ->
     exists items,
       fst (router_get env w) = mkResponse 200 (SuccessData items) /\
       Permutation (map filename items) (concat (map response_filenames responses)) /\
       length items = length (concat reqs)).
Proof.
  split; [reflexivity |]. split; [apply part_filename_listed_iff |].
  intros reqs responses w Hrun Hnd Hall.
  apply upload_requests_present in Hrun as [Hnames [_ [log' ->]]].
  rewrite (@add_parts_fresh (concat reqs) []) by exact Hnd. simpl.
  unfold router_get, readdir. cbn [uploads fst].
  rewrite filter_all.
  - eexists. split; [reflexivity |]. rewrite Hnames, map_map. cbn [filename media_item].
    rewrite map_id, !length_map. split; [apply Permutation_refl | reflexivity].
  - apply Forall_forall. intros name Hin. apply in_map_iff in Hin as [p [<- Hp]].
    rewrite Forall_forall in Hall. apply part_filename_listed_iff. now apply Hall.
Qed.

Lemma listing_after_uploads_witness :
  let a := mkPart (lit "cat.PNG") (lit "image/png") 1024 1700000000000 11 in
  let b := mkPart (lit "dog.jpeg") (lit "image/jpeg") 2048 1700000000000 12 in
  let c := mkPart (lit "logo.svg") (lit "image/svg+xml") 512 1700000000001 13 in
  exists responses w items,
    upload_requests None [[a; b]; [c]] (mkWorld (Some []) []) = Some (responses, w) /\
    fst (router_get None w) = mkResponse 200 (SuccessData items) /\
    Permutation (map filename items) (concat (map response_filenames responses)) /\
    length items = 3.
Proof.
  intros a b c.
  destruct (upload_requests None [[a; b]; [c]] (mkWorld (Some []) []))
    as [[responses w] |] eqn:Hrun; [| vm_compute in Hrun; discriminate].
  destruct (proj2 (proj2 (listing_after_uploads None [])) [[a; b]; [c]] responses w Hrun)
    as [items [H1 [H2 H3]]].
  - vm_compute. repeat constructor; simpl; intuition discriminate.
  - repeat constructor.
    + exists (lit "PNG"). split; [reflexivity |]. exists (lit "png"). split; [simpl; tauto | reflexivity].
    + exists (lit "jpeg"). split; [reflexivity |]. exists (lit "jpeg"). split; [simpl; tauto | reflexivity].
    + exists (lit "svg"). split; [reflexivity |]. exists (lit "svg"). split; [simpl; tauto | reflexivity].
  - exists responses, w, items. auto.
Defined.

(** ** Deleting a file that is not there *)

(** C9, as the specification words it, fails: [".."] passes validation and
    is no entry of the uploads directory, and so does ["."]; the handler
    calls [unlink] on a directory, which fails with an error other than
    ENOENT, and answers with the generic 500. *)
Lemma router_delete_dotdot_is_500 :
  let w := mkWorld (Some [lit "images-1-2.png"]) [] in
  test_anchored filenameRe (lit "..") = true /\
  ~ In (lit "..") [lit "images-1-2.png"] /\
  fst (router_delete (lit "..") w) =
    mkResponse 500 (ErrorBody (lit "Failed to delete media")) /\
  test_anchored filenameRe (lit ".") = true /\
  ~ In (lit ".") [lit "images-1-2.png"] /\
  fst (router_delete (lit ".") w) =
    mkResponse 500 (ErrorBody (lit "Failed to delete media")).
Proof.
  repeat split; try reflexivity; simpl; intuition discriminate.
Qed.

(** C9, amended. A delete request whose file name passes validation, is
    neither ["."] nor [".."], is no longer than the host's longest file
    name and is no entry of the uploads directory is answered 404 "File not
    found", which is not the generic 500 answer, and leaves the uploads
    directory as it was. *)
Theorem router_delete_missing_entry (filename : str) (w : World)
  (Hvalid : test_anchored filenameRe filename = true)
  (Hdot : filename <> lit ".")
  (Hdotdot : filename <> lit "..")
  (Hlength : length filename <= NAME_MAX)
  (Hmissing : forall es, uploads w = Some es -> ~ In filename es) :
  fst (router_delete filename w) = mkResponse 404 (ErrorBody (lit "File not found")) /\
  fst (router_delete filename w) <>
    mkResponse 500 (ErrorBody (lit "Failed to delete media")) /\
  uploads (snd (router_delete filename w)) = uploads w.
Proof.
  assert (E : fst (router_delete filename w) =
              mkResponse 404 (ErrorBody (lit "File not found")) /\
              uploads (snd (router_delete filename w)) = uploads w).
  { unfold router_delete. rewrite Hvalid. cbn [negb].
    pose proof Hvalid as Ha. apply filenameRe_iff in Ha.
    destruct (join_uploads_allowed Ha) as [[E _] | [[E _] | E]];
      [contradiction | contradiction |].
    rewrite E. unfold unlink, logged.
    destruct (uploads w) as [es |] eqn:Hu; [| split; reflexivity].
    assert (Hm : mem filename es = false).
    { apply mem_false_iff. now apply Hmissing. }
    rewrite Hm. split; reflexivity. }
  destruct E as [E1 E2]. rewrite E1. repeat split; auto. discriminate.
Qed.

Lemma router_delete_missing_entry_witness :
  let w := mkWorld (Some [lit "images-1-2.png"]) [] in
  fst (router_delete (lit "images-3-4.png") w) =
    mkResponse 404 (ErrorBody (lit "File not found")) /\
  uploads (snd (router_delete (lit "images-3-4.png") w)) = uploads w.
Proof.
  intros w.
  destruct (@router_delete_missing_entry (lit "images-3-4.png") w)
    as [H1 [_ H2]].
  - reflexivity.
  - discriminate.
  - discriminate.
  - unfold NAME_MAX. simpl. lia.
  - intros es H. injection H as <-. simpl. intuition discriminate.
  - split; assumption.
Defined.

(** * Further properties of the code *)

(** ** The namer keeps the extension *)

Section ExtnameRuns.

Import Path.

Lemma plain_char_iff (c : ascii) :
  plain_char c = true <-> c <> "/"%char /\ c <> "."%char.
Proof.
  unfold plain_char. rewrite negb_true_iff, orb_false_iff.
  now rewrite !Ascii.eqb_neq.
Qed.

Lemma extname_loop_plain_step (path : str) (i : nat) (st : scan) :
  plain_char (charAt path i) = true ->
  extname_loop path (S i) st = extname_loop path i (scan_plain i st).
Proof.
  intros H. apply plain_char_iff in H as [Hs Hd].
  apply Ascii.eqb_neq in Hs, Hd. cbn [extname_loop]. cbv zeta.
  rewrite Hs, Hd. reflexivity.
Qed.

Lemma scan_plain_idem (i j : nat) (st : scan) :
  scan_plain j (scan_plain i st) = scan_plain i st.
Proof.
  unfold scan_plain. destruct st as [sd sp e ms pds]. simpl.
  destruct (Z.eqb_spec e (-1)); simpl;
    destruct (Z.eqb_spec sd (-1)); simpl;
    repeat match goal with
      | |- context [(?a =? ?b)%Z] => destruct (Z.eqb_spec a b); simpl in *
      end; reflexivity || lia || congruence.
Qed.

(** A run of plain characters, read from index [i + k] down to [i], acts
    as its first character alone. *)
Lemma extname_loop_plain_run (path : str) (k i : nat) (st : scan) :
  (forall j, i <= j <= i + k -> plain_char (charAt path j) = true) ->
  extname_loop path (S (i + k)) st = extname_loop path i (scan_plain (i + k) st).
Proof.
  revert st. induction k as [|k IH]; intros st H.
  - rewrite Nat.add_0_r. apply extname_loop_plain_step. apply H. lia.
  - rewrite extname_loop_plain_step by (apply H; lia).
    replace (i + S k) with (S (i + k)) by lia.
    rewrite IH by (intros j Hj; apply H; lia).
    now rewrite scan_plain_idem.
Qed.

Lemma charAt_app_l (a b : str) (j : nat) :
  j < length a -> charAt (a ++ b) j = charAt a j.
Proof. intros H. unfold charAt. now apply app_nth1. Qed.

Lemma charAt_app_r (a b : str) (j : nat) :
  charAt (a ++ b) (length a + j) = charAt b j.
Proof.
  unfold charAt. rewrite app_nth2 by lia. f_equal. lia.
Qed.

Lemma charAt_plain (s : str) (j : nat) :
  Forall (fun c => plain_char c = true) s -> j < length s ->
  plain_char (charAt s j) = true.
Proof.
  intros H Hj. rewrite Forall_forall in H. apply H. now apply nth_In.
Qed.

(** A name without dot and without ["/"] has no extension. *)
Lemma extname_plain (s : str) :
  Forall (fun c => plain_char c = true) s -> extname s = [].
Proof.
  intros H. unfold extname. cbv zeta.
  destruct s as [|c s]; [reflexivity |].
  replace (length (c :: s)) with (S (0 + length s)) by reflexivity.
  rewrite extname_loop_plain_run.
  - reflexivity.
  - intros j Hj. apply charAt_plain; [exact H | simpl; lia].
Qed.

(** After a non-empty plain prefix, a dot and plain characters are the
    extension. *)
Lemma extname_prefix_dot (prefix rest : str) :
  prefix <> [] ->
  Forall (fun c => plain_char c = true) prefix ->
  Forall (fun c => plain_char c = true) rest ->
  extname (prefix ++ "."%char :: rest) = "."%char :: rest.
Proof.
  intros Hne Hp Hr. unfold extname. cbv zeta.
  set (path := prefix ++ "."%char :: rest).
  assert (Hlen : length path = length prefix + S (length rest)).
  { unfold path. rewrite length_app. reflexivity. }
  assert (Hdot : charAt path (length prefix) = "."%char).
  { unfold path. rewrite <- (Nat.add_0_r (length prefix)).
    now rewrite charAt_app_r. }
  assert (Hpre : forall j, j < length prefix -> plain_char (charAt path j) = true).
  { intros j Hj. unfold path. rewrite charAt_app_l by exact Hj.
    now apply charAt_plain. }
  assert (Hrest : forall j, length prefix < j < length path ->
                            plain_char (charAt path j) = true).
  { intros j Hj. unfold path.
    replace j with (length prefix + S (j - length prefix - 1)) by lia.
    rewrite charAt_app_r.
    change (charAt ("."%char :: rest) (S (j - length prefix - 1)))
      with (charAt rest (j - length prefix - 1)).
    apply charAt_plain; [exact Hr | lia]. }
  (* the state after the extension and its dot have been read *)
  assert (Hmid : extname_loop path (length path) scan0 =
                 extname_loop path (length prefix)
                   (mkScan (Z.of_nat (length prefix)) 0 (Z.of_nat (length path))
                           false 0)).
  { destruct rest as [|r rest'].
    - rewrite Hlen. simpl length. rewrite Nat.add_1_r.
      cbn [extname_loop]. cbv zeta. rewrite Hdot. simpl.
      f_equal. f_equal. lia.
    - replace (length path) with (S (S (length prefix) + length rest'))
        by (rewrite Hlen; simpl; lia).
      rewrite extname_loop_plain_run
        by (intros j Hj; apply Hrest; rewrite Hlen; simpl; lia).
      cbn [extname_loop]. cbv zeta. rewrite Hdot. simpl.
      f_equal. f_equal. lia. }
  assert (Hfin : extname_loop path (length prefix)
                   (mkScan (Z.of_nat (length prefix)) 0 (Z.of_nat (length path))
                           false 0) =
                 mkScan (Z.of_nat (length prefix)) 0 (Z.of_nat (length path))
                        false (-1)).
  { destruct (length prefix) as [|n] eqn:Hn.
    { destruct prefix; [congruence | discriminate]. }
    change (S n) with (S (0 + n)) at 1.
    rewrite extname_loop_plain_run by (intros j Hj; apply Hpre; lia).
    cbn [extname_loop]. unfold scan_plain.
    cbn [startDot endPos preDotState startPart matchedSlash].
    assert (E1 : (Z.of_nat (length path) =? -1)%Z = false) by (apply Z.eqb_neq; lia).
    assert (E2 : (Z.of_nat (S n) =? -1)%Z = false) by (apply Z.eqb_neq; lia).
    rewrite E1. cbn [startDot endPos preDotState startPart matchedSlash].
    rewrite E2. reflexivity. }
  rewrite Hmid, Hfin. cbn [startDot endPos preDotState startPart matchedSlash].
  assert (E1 : (Z.of_nat (length path) =? -1)%Z = false) by (apply Z.eqb_neq; lia).
  assert (E2 : (Z.of_nat (length prefix) =? -1)%Z = false) by (apply Z.eqb_neq; lia).
  rewrite E1, E2. cbn [orb Z.eqb andb].
  unfold slice. rewrite Nat2Z.id.
  replace (Z.to_nat (Z.of_nat (length path) - Z.of_nat (length prefix)))
    with (S (length rest)) by lia.
  unfold path. rewrite skipn_app, skipn_all, Nat.sub_diag. simpl.
  now rewrite firstn_all.
Qed.

End ExtnameRuns.

Lemma storage_filename_split (file : File) (now rand : N) :
  storage_filename file now rand =
  namer_prefix file now rand ++ Path.extname (originalname file).
Proof.
  unfold storage_filename, namer_prefix. cbv zeta. now rewrite <- !app_assoc.
Qed.

Lemma digit_plain (c : ascii) : is_digit c = true -> plain_char c = true.
Proof.
  intros H. apply plain_char_iff. split; intros ->; discriminate.
Qed.

Lemma not_In_plain (s : str) :
  ~ In "."%char s -> ~ In "/"%char s -> Forall (fun c => plain_char c = true) s.
Proof.
  intros Hd Hs. apply Forall_forall. intros c Hc. apply plain_char_iff.
  split; intros ->; contradiction.
Qed.

Lemma namer_prefix_plain (file : File) (now rand : N) :
  ~ In "."%char (fieldname file) -> ~ In "/"%char (fieldname file) ->
  Forall (fun c => plain_char c = true) (namer_prefix file now rand) /\
  namer_prefix file now rand <> [].
Proof.
  intros Hd Hs. split.
  - unfold namer_prefix. rewrite !Forall_app. repeat split.
    + now apply not_In_plain.
    + repeat constructor.
    + eapply Forall_impl; [apply digit_plain | apply number_to_string_digits].
    + repeat constructor.
    + eapply Forall_impl; [apply digit_plain | apply number_to_string_digits].
  - unfold namer_prefix. destruct (fieldname file); discriminate.
Qed.

(** X1. The extension [path.extname] finds in a generated name is the one it
    found in the original name, whenever the field identifier has neither
    dot nor ["/"]. *)
Theorem storage_filename_keeps_extension (file : File) (now rand : N)
  (Hdot : ~ In "."%char (fieldname file))
  (Hslash : ~ In "/"%char (fieldname file)) :
  Path.extname (storage_filename file now rand) = Path.extname (originalname file).
Proof.
  rewrite storage_filename_split.
  destruct (namer_prefix_plain file now rand Hdot Hslash) as [Hp Hne].
  destruct (extname_shape (originalname file)) as [E | [rest [E [Hrd Hrs]]]];
    rewrite E.
  - rewrite app_nil_r. now apply extname_plain.
  - apply extname_prefix_dot; auto. now apply not_In_plain.
Qed.

Lemma storage_filename_keeps_extension_witness :
  Path.extname (storage_filename
                  (mkFile uploadMultiple_field (lit "Holiday.Photo.JPG") (lit "image/jpeg") 7)
                  1700000000000 123456789) = lit ".JPG".
Proof.
  apply (@storage_filename_keeps_extension
           (mkFile uploadMultiple_field (lit "Holiday.Photo.JPG") (lit "image/jpeg") 7)
           1700000000000 123456789);
    simpl; intuition discriminate.
Defined.

(** ** The namer tells requests apart *)

Lemma lit_inj (s t : string) : lit s = lit t -> s = t.
Proof.
  unfold lit. intros H. apply (f_equal string_of_list_ascii) in H.
  now rewrite !string_of_list_ascii_of_string in H.
Qed.

Lemma N_to_uint_nonnil (n : N) : N.to_uint n <> Decimal.Nil.
Proof.
  destruct n; [discriminate | apply DecimalPos.Unsigned.to_uint_nonnil].
Qed.

Lemma number_to_string_inj (n m : N) :
  number_to_string n = number_to_string m -> n = m.
Proof.
  unfold number_to_string. intros H. apply lit_inj in H.
  apply (f_equal NilZero.uint_of_string) in H.
  rewrite !NilZero.usu in H by apply N_to_uint_nonnil.
  injection H as H. now apply DecimalN.Unsigned.to_uint_inj.
Qed.

(** Two strings of digits, each followed by a character that is no digit
    or by nothing, end at the same place. *)
Lemma digits_then_other (a b x y : str) :
  Forall (fun c => is_digit c = true) a ->
  Forall (fun c => is_digit c = true) b ->
  (forall c t, x = c :: t -> is_digit c = false) ->
  (forall c t, y = c :: t -> is_digit c = false) ->
  a ++ x = b ++ y -> a = b /\ x = y.
Proof.
  intros Ha. revert b. induction Ha as [|c a Hc _ IH]; intros b Hb Hx Hy H.
  - destruct Hb as [|d b Hd _]; [auto |]. simpl in H.
    specialize (Hx d (b ++ y) H). congruence.
  - destruct Hb as [|d b Hd Hb]; simpl in H.
    + symmetry in H. specialize (Hy c (a ++ x) H). congruence.
    + injection H as -> H. destruct (IH b Hb Hx Hy H) as [-> ->]. auto.
Qed.

(** X2. Under one field identifier two generated names are equal only if the
    timestamps, the random integers and the extensions are. *)
Theorem storage_filename_injective (f1 f2 : File) (now1 rand1 now2 rand2 : N)
  (Hfield : fieldname f1 = fieldname f2)
  (Hsame : storage_filename f1 now1 rand1 = storage_filename f2 now2 rand2) :
  now1 = now2 /\ rand1 = rand2 /\
  Path.extname (originalname f1) = Path.extname (originalname f2).
Proof.
  unfold storage_filename in Hsame. cbv zeta in Hsame.
  rewrite Hfield, <- !app_assoc in Hsame.
  apply app_inv_head in Hsame. apply app_inv_head in Hsame.
  apply digits_then_other in Hsame as [Hnow Hrest];
    try apply number_to_string_digits;
    try (intros c t E; injection E as <- _; reflexivity).
  injection Hrest as Hrest.
  apply digits_then_other in Hrest as [Hrand Hext];
    try apply number_to_string_digits.
  - apply number_to_string_inj in Hnow, Hrand. auto.
  - intros c t E.
    destruct (extname_shape (originalname f1)) as [E' | [rest [E' _]]];
      rewrite E' in E; [discriminate | injection E as <- _; reflexivity].
  - intros c t E.
    destruct (extname_shape (originalname f2)) as [E' | [rest [E' _]]];
      rewrite E' in E; [discriminate | injection E as <- _; reflexivity].
Qed.

Lemma storage_filename_injective_witness :
  let f1 := mkFile uploadMultiple_field (lit "cat.png") (lit "image/png") 10 in
  let f2 := mkFile uploadMultiple_field (lit "dog.png") (lit "image/png") 20 in
  (1700000000000 = 1700000000000 /\ 42 = 42)%N /\
  Path.extname (originalname f1) = Path.extname (originalname f2).
Proof.
  intros f1 f2.
  destruct (@storage_filename_injective f1 f2 1700000000000 42 1700000000000 42
              eq_refl eq_refl) as [H1 [H2 H3]].
  auto.
Defined.

(** ** Generated names and the delete route *)

Lemma digit_filename_char (c : ascii) : is_digit c = true -> filename_char c = true.
Proof.
  intros H. unfold filename_char. rewrite H. now rewrite !orb_true_r.
Qed.

Lemma storage_filename_allowed_iff (file : File) (now rand : N) :
  allowed_filename (storage_filename file now rand) <->
  Forall (fun c => filename_char c = true) (fieldname file) /\
  Forall (fun c => filename_char c = true) (Path.extname (originalname file)).
Proof.
  unfold allowed_filename.
  rewrite storage_filename_split. unfold namer_prefix.
  rewrite !Forall_app.
  assert (Hn : forall n, Forall (fun c => filename_char c = true) (number_to_string n)).
  { intros n. eapply Forall_impl; [apply digit_filename_char |
                                    apply number_to_string_digits]. }
  split.
  - intros [_ [[Hf _] He]]. auto.
  - intros [Hf He]. split.
    + destruct (fieldname file); discriminate.
    + repeat split; auto; repeat constructor.
Qed.

(** X3. A generated name passes the validation of the delete route exactly
    when the field identifier and the extension of the original name are
    made of letters, digits, underscore, hyphen and dot. *)
Theorem storage_filename_deletable_iff (file : File) (now rand : N) :
  test_anchored filenameRe (storage_filename file now rand) = true <->
  Forall (fun c => filename_char c = true) (fieldname file) /\
  Forall (fun c => filename_char c = true) (Path.extname (originalname file)).
Proof.
  rewrite filenameRe_iff. apply storage_filename_allowed_iff.
Qed.

Lemma to_upper_letter (x : ascii) :
  is_upper (to_upper x) = true -> filename_char x = true.
Proof.
  destruct x as [[] [] [] [] [] [] [] []]; vm_compute; congruence.
Qed.

Lemma allowlisted_chars (e : str) :
  allowlisted e -> Forall (fun c => filename_char c = true) e.
Proof.
  intros [a [Ha He]]. unfold eq_ignore_case in He.
  assert (Hup : Forall (fun c => is_upper c = true) (map to_upper a)).
  { unfold image_extensions in Ha. simpl in Ha.
    destruct Ha as [<- | [<- | [<- | [<- | [<- | [<- | []]]]]]];
      repeat constructor. }
  rewrite <- He in Hup. clear He Ha.
  induction e as [|x e IH]; [constructor |].
  inversion Hup; subst. constructor; [now apply to_upper_letter | auto].
Qed.

(** X4. Every uploaded file the list operation shows can be deleted by the name
    shown: a generated name that passes the extension filter of the list
    also passes the validation of the delete route. *)
Theorem listed_upload_is_deletable (p : Part)
  (Hlisted : test_at_end imageRe (part_filename p) = true) :
  test_anchored filenameRe (part_filename p) = true.
Proof.
  apply part_filename_listed_iff in Hlisted as [e [He Ha]].
  apply filenameRe_iff. apply storage_filename_allowed_iff. split.
  - repeat constructor.
  - cbn [file_of_part originalname]. rewrite He.
    constructor; [reflexivity | now apply allowlisted_chars].
Qed.

Lemma listed_upload_is_deletable_witness :
  test_anchored filenameRe
    (part_filename (mkPart (lit "Logo.WebP") (lit "image/webp") 99 1700000000000 7)) = true.
Proof.
  apply (@listed_upload_is_deletable
           (mkPart (lit "Logo.WebP") (lit "image/webp") 99 1700000000000 7)).
  reflexivity.
Defined.

(** X5. Joined to the uploads directory, a generated name is an entry of that
    directory and nothing above or beside it, whenever the field identifier
    has neither dot nor ["/"]. *)
Theorem storage_filename_joins_inside_uploads (file : File) (now rand : N)
  (Hdot : ~ In "."%char (fieldname file))
  (Hslash : ~ In "/"%char (fieldname file)) :
  Path.join_uploads (storage_filename file now rand) =
  Path.InUploads (storage_filename file now rand).
Proof.
  unfold Path.join_uploads.
  destruct (@storage_filename_prefix file now rand Hdot Hslash)
    as [prefix [E [_ Hps]]].
  destruct (extension_shape_count (extname_shape (originalname file))) as [_ Hes].
  assert (Hno : existsb (Ascii.eqb "/"%char) (storage_filename file now rand) = false).
  { destruct (existsb _ _) eqn:X; [| reflexivity].
    apply existsb_exists in X as [c [Hin Hc]]. apply Ascii.eqb_eq in Hc. subst c.
    rewrite E in Hin. apply in_app_or in Hin as [Hin | Hin]; contradiction. }
  rewrite Hno.
  assert (Hhead : forall s, storage_filename file now rand = "."%char :: s -> False).
  { intros s Hs. rewrite storage_filename_split in Hs. unfold namer_prefix in Hs.
    destruct (fieldname file) as [|c field] eqn:Hf; simpl in Hs.
    - discriminate.
    - injection Hs as -> _. apply Hdot. now left. }
  destruct (str_eqb _ []) eqn:E0.
  { apply str_eqb_eq in E0. rewrite storage_filename_split in E0.
    unfold namer_prefix in E0. destruct (fieldname file); discriminate. }
  destruct (str_eqb _ (lit ".")) eqn:E1.
  { apply str_eqb_eq in E1. now apply Hhead in E1. }
  destruct (str_eqb _ (lit "..")) eqn:E2.
  { apply str_eqb_eq in E2. now apply Hhead in E2. }
  reflexivity.
Qed.

Lemma storage_filename_joins_inside_uploads_witness :
  let file := mkFile uploadMultiple_field (lit "../../etc/passwd") (lit "image/png") 1 in
  Path.join_uploads (storage_filename file 5 6) =
  Path.InUploads (storage_filename file 5 6).
Proof.
  intros file.
  apply (@storage_filename_joins_inside_uploads file 5 6);
    simpl; intuition discriminate.
Defined.

(** ** Deleting a file that is there *)

Lemma mem_true_iff (name : str) (es : list str) : mem name es = true <-> In name es.
Proof.
  unfold mem. rewrite existsb_exists. split.
  - intros [x [Hin Hx]]. apply str_eqb_eq in Hx. now subst.
  - intros H. exists name. split; [exact H | apply str_eqb_refl].
Qed.

Lemma In_remove_entry (name e : str) (es : list str) :
  In e (remove_entry name es) <-> In e es /\ e <> name.
Proof.
  unfold remove_entry. rewrite filter_In, negb_true_iff, str_eqb_neq.
  split; intros [H1 H2]; split; auto.
Qed.

(** What a delete request for a plain entry name does, step by step. *)
Lemma router_delete_entry (name : str) (w : World) (es : list str) :
  test_anchored filenameRe name = true ->
  name <> lit "." -> name <> lit ".." ->
  uploads w = Some es ->
  router_delete name w =
    if mem name es
    then (mkResponse 200 (SuccessMessage (lit "File deleted")),
          mkWorld (Some (remove_entry name es))
                  (fslog w ++ [CallUnlink (Path.InUploads name)]))
    else (mkResponse 404 (ErrorBody (lit "File not found")),
          mkWorld (Some es) (fslog w ++ [CallUnlink (Path.InUploads name)])).
Proof.
  intros Hvalid Hd Hdd Hu. unfold router_delete. rewrite Hvalid. cbn [negb].
  pose proof Hvalid as Ha. apply filenameRe_iff in Ha.
  destruct (join_uploads_allowed Ha) as [[E _] | [[E _] | E]];
    [contradiction | contradiction |].
  rewrite E. unfold unlink, logged. rewrite Hu. cbn [uploads fslog].
  destruct (mem name es); reflexivity.
Qed.

(** X6. A delete request for a file that is in the uploads directory is
    answered 200 "File deleted"; afterwards the name is gone from the
    directory and every other entry is still there. *)
Theorem router_delete_existing (name : str) (w : World) (es : list str)
  (Hvalid : test_anchored filenameRe name = true)
  (Hdot : name <> lit ".") (Hdotdot : name <> lit "..")
  (Hdir : uploads w = Some es)
  (Hthere : In name es) :
  fst (router_delete name w) = mkResponse 200 (SuccessMessage (lit "File deleted")) /\
  exists es',
    uploads (snd (router_delete name w)) = Some es' /\
    ~ In name es' /\
    (forall e, In e es' <-> In e es /\ e <> name) /\
    length es' < length es.
Proof.
  rewrite (@router_delete_entry name w es Hvalid Hdot Hdotdot Hdir).
  apply mem_true_iff in Hthere as Hm. rewrite Hm. cbn [fst snd uploads].
  split; [reflexivity |]. exists (remove_entry name es).
  split; [reflexivity |]. split; [| split].
  - intros H. apply In_remove_entry in H as [_ H]. congruence.
  - intros e. apply In_remove_entry.
  - unfold remove_entry. clear Hm Hdir. induction es as [|x es IH]; [destruct Hthere |].
    simpl. destruct (str_eqb name x) eqn:E; simpl.
    + pose proof (filter_length_le (fun e => negb (str_eqb name e)) es). lia.
    + destruct Hthere as [-> | Hin].
      * rewrite str_eqb_refl in E. discriminate.
      * specialize (IH Hin). lia.
Qed.

Lemma router_delete_existing_witness :
  let w := mkWorld (Some [lit "a.png"; lit "b.png"]) [] in
  fst (router_delete (lit "a.png") w) =
    mkResponse 200 (SuccessMessage (lit "File deleted")) /\
  exists es', uploads (snd (router_delete (lit "a.png") w)) = Some es' /\
              ~ In (lit "a.png") es'.
Proof.
  intros w.
  destruct (@router_delete_existing (lit "a.png") w [lit "a.png"; lit "b.png"])
    as [H1 [es' [H2 [H3 _]]]];
    [ reflexivity | discriminate | discriminate | reflexivity | simpl; tauto | ].
  split; [exact H1 |]. now exists es'.
Defined.

(** X7. Deleting the same file a second time is answered 404: the first
    request removed it. *)
Theorem router_delete_twice (name : str) (w : World) (es : list str)
  (Hvalid : test_anchored filenameRe name = true)
  (Hdot : name <> lit ".") (Hdotdot : name <> lit "..")
  (Hdir : uploads w = Some es)
  (Hthere : In name es) :
  let w1 := snd (router_delete name w) in
  fst (router_delete name w1) = mkResponse 404 (ErrorBody (lit "File not found")) /\
  uploads (snd (router_delete name w1)) = uploads w1.
Proof.
  intros w1. unfold w1.
  rewrite (@router_delete_entry name w es Hvalid Hdot Hdotdot Hdir).
  apply mem_true_iff in Hthere as Hm. rewrite Hm. cbn [snd].
  rewrite (@router_delete_entry name
             (mkWorld (Some (remove_entry name es))
                      (fslog w ++ [CallUnlink (Path.InUploads name)]))
             (remove_entry name es) Hvalid Hdot Hdotdot eq_refl).
  assert (Hgone : mem name (remove_entry name es) = false).
  { apply mem_false_iff. intros H. apply In_remove_entry in H as [_ H]. congruence. }
  rewrite Hgone. split; reflexivity.
Qed.

Lemma router_delete_twice_witness :
  let w := mkWorld (Some [lit "a.png"; lit "b.png"]) [] in
  fst (router_delete (lit "a.png") (snd (router_delete (lit "a.png") w))) =
    mkResponse 404 (ErrorBody (lit "File not found")).
Proof.
  intros w.
  destruct (@router_delete_twice (lit "a.png") w [lit "a.png"; lit "b.png"])
    as [H _];
    [ reflexivity | discriminate | discriminate | reflexivity | simpl; tauto | ].
  exact H.
Defined.

Lemma filter_filter_comm (A : Type) (f g : A -> bool) (l : list A) :
  filter f (filter g l) = filter g (filter f l).
Proof.
  induction l as [|x l IH]; [reflexivity |]. simpl.
  destruct (f x) eqn:Hf, (g x) eqn:Hg; simpl; rewrite ?Hf, ?Hg, IH; reflexivity.
Qed.

Lemma filter_map_comm (A B : Type) (h : A -> B) (f : B -> bool) (l : list A) :
  filter f (map h l) = map h (filter (fun x => f (h x)) l).
Proof.
  induction l as [|x l IH]; [reflexivity |]. simpl.
  destruct (f (h x)); simpl; now rewrite IH.
Qed.

(** X8. After a file was deleted the listing is the earlier listing without
    that file, in the same order. *)
Theorem router_delete_then_list (env : option str) (name : str) (w : World) (es : list str)
  (Hvalid : test_anchored filenameRe name = true)
  (Hdot : name <> lit ".") (Hdotdot : name <> lit "..")
  (Hdir : uploads w = Some es)
  (Hthere : In name es) :
  let w1 := snd (router_delete name w) in
  status (fst (router_get env w1)) = 200 /\
  response_data (fst (router_get env w1)) =
    filter (fun item => negb (str_eqb name (filename item)))
           (response_data (fst (router_get env w))) /\
  ~ In name (response_filenames (fst (router_get env w1))).
Proof.
  intros w1. unfold w1.
  rewrite (@router_delete_entry name w es Hvalid Hdot Hdotdot Hdir).
  apply mem_true_iff in Hthere as Hm. rewrite Hm. cbn [snd].
  unfold router_get, readdir. rewrite Hdir.
  cbn [uploads fst status body response_data response_filenames].
  split; [reflexivity |]. split.
  - unfold remove_entry. rewrite filter_filter_comm, filter_map_comm. reflexivity.
  - rewrite map_map. cbn [media_item filename]. rewrite map_id.
    intros H. apply filter_In in H as [H _].
    apply In_remove_entry in H as [_ H]. congruence.
Qed.

Lemma router_delete_then_list_witness :
  let w := mkWorld (Some [lit "a.png"; lit "notes.txt"; lit "b.png"]) [] in
  response_filenames (fst (router_get None (snd (router_delete (lit "a.png") w)))) =
    [lit "b.png"].
Proof.
  intros w.
  destruct (@router_delete_then_list None (lit "a.png") w
              [lit "a.png"; lit "notes.txt"; lit "b.png"])
    as [_ [H _]];
    [ reflexivity | discriminate | discriminate | reflexivity | simpl; tauto | ].
  unfold response_filenames, response_data in *.
  destruct (body (fst (router_get None (snd (router_delete (lit "a.png") w)))));
    try (now rewrite H); discriminate.
Defined.

(** ** What a delete request leaves alone *)

Ltac delete_cases name w :=
  unfold router_delete, unlink, logged;
  destruct (test_anchored filenameRe name); cbn [negb];
  [ let n := fresh "n" in
    let es0 := fresh "es0" in
    destruct (Path.join_uploads name) as [n | | | ?] eqn:Hj;
    destruct (uploads w) as [es0 |] eqn:Hu;
    try destruct (mem n es0) eqn:Hm
  | ];
  cbn [fst snd status uploads fslog].

Lemma join_uploads_InUploads (name n : str) :
  Path.join_uploads name = Path.InUploads n -> n = name.
Proof.
  unfold Path.join_uploads.
  destruct (existsb _ name); [discriminate |].
  destruct (str_eqb name [] || str_eqb name (lit ".")); [discriminate |].
  destruct (str_eqb name (lit "..")); [discriminate |]. congruence.
Qed.

Lemma router_delete_status (name : str) (w : World) :
  status (fst (router_delete name w)) = 200 \/
  status (fst (router_delete name w)) = 400 \/
  status (fst (router_delete name w)) = 404 \/
  status (fst (router_delete name w)) = 500.
Proof. delete_cases name w; tauto. Qed.

Lemma router_delete_failed_unchanged (name : str) (w : World) :
  status (fst (router_delete name w)) <> 200 ->
  uploads (snd (router_delete name w)) = uploads w.
Proof. delete_cases name w; intros; congruence. Qed.

Lemma router_delete_adds_nothing (name : str) (w : World) (es' : list str) (e : str) :
  uploads (snd (router_delete name w)) = Some es' -> In e es' ->
  exists es, uploads w = Some es /\ In e es.
Proof.
  delete_cases name w; intros H1 H2; try discriminate;
    try (injection H1 as <-); eauto.
  apply In_remove_entry in H2 as [H2 _]. eauto.
Qed.

Lemma router_delete_keeps_others (name : str) (w : World) (es : list str) (e : str) :
  uploads w = Some es -> In e es -> e <> name ->
  exists es', uploads (snd (router_delete name w)) = Some es' /\ In e es'.
Proof.
  delete_cases name w; intros H1 H2 H3; try discriminate;
    try (injection H1 as <-); eauto.
  apply join_uploads_InUploads in Hj. subst.
  eexists. split; [reflexivity |]. apply In_remove_entry. auto.
Qed.

(** X9. A delete request is answered 200, 400, 404 or 500; unless the answer
    is 200 the uploads directory is as before; no request adds an entry,
    and none removes an entry other than the one it names. *)
Theorem router_delete_frame (name : str) (w : World) :
  (status (fst (router_delete name w)) = 200 \/
   status (fst (router_delete name w)) = 400 \/
   status (fst (router_delete name w)) = 404 \/
   status (fst (router_delete name w)) = 500) /\
  (status (fst (router_delete name w)) <> 200 ->
   uploads (snd (router_delete name w)) = uploads w) /\
  (forall es' e, uploads (snd (router_delete name w)) = Some es' -> In e es' ->
                 exists es, uploads w = Some es /\ In e es) /\
  (forall es e, uploads w = Some es -> In e es -> e <> name ->
                exists es', uploads (snd (router_delete name w)) = Some es' /\ In e es').
Proof.
  split; [apply router_delete_status |].
  split; [apply router_delete_failed_unchanged |].
  split.
  - intros es' e. apply router_delete_adds_nothing.
  - intros es e. apply router_delete_keeps_others.
Qed.

(** ** Listing reads and nothing more *)

(** X10. The list operation makes one [readdir] call and leaves the directory
    as it is, so that listing again gives the same answer; it is answered
    200 when the directory can be read and 500 "Failed to list media"
    otherwise; and a delete request that is not answered 200 does not
    change what is listed. *)
Theorem router_get_read_only (env : option str) (w : World) :
  uploads (snd (router_get env w)) = uploads w /\
  fslog (snd (router_get env w)) = fslog w ++ [CallReaddir] /\
  fst (router_get env (snd (router_get env w))) = fst (router_get env w) /\
  (uploads w = None ->
   fst (router_get env w) = mkResponse 500 (ErrorBody (lit "Failed to list media"))) /\
  (uploads w <> None -> status (fst (router_get env w)) = 200) /\
  (forall name, status (fst (router_delete name w)) <> 200 ->
     fst (router_get env (snd (router_delete name w))) = fst (router_get env w)).
Proof.
  assert (Hdep : forall w1 w2, uploads w1 = uploads w2 ->
                   fst (router_get env w1) = fst (router_get env w2)).
  { intros w1 w2 H. unfold router_get, readdir. rewrite H.
    destruct (uploads w2); reflexivity. }
  assert (Hsame : uploads (snd (router_get env w)) = uploads w).
  { unfold router_get, readdir, logged. destruct w as [[es |] log]; reflexivity. }
  split; [exact Hsame |]. split.
  { unfold router_get, readdir, logged. destruct w as [[es |] log]; reflexivity. }
  split; [now apply Hdep |]. split.
  { intros H. unfold router_get, readdir. now rewrite H. }
  split.
  { intros H. unfold router_get, readdir. destruct (uploads w); [reflexivity | congruence]. }
  intros name H. apply Hdep. now apply router_delete_failed_unchanged.
Qed.

(** ** The origin check and the error handler of the application *)

(** X11. The origin check lets a request through exactly when it has no Origin
    header, an empty one, or one on the allow list.  The error it raises
    for any other origin names that origin at its end and is answered 403
    with that message by the application's error handler. *)
Theorem corsOrigin_allows_listed (origin : option str) :
  (corsOrigin origin = inr true <->
   origin = None \/ origin = Some [] \/
   exists o, origin = Some o /\ In o allowedOrigins) /\
  corsOrigin origin <> inr false /\
  (forall err, corsOrigin origin = inl err ->
     exists o, origin = Some o /\ o <> [] /\ ~ In o allowedOrigins /\
               endsWith o (message err) /\
               errorHandler err = mkResponse 403 (ErrorBody (message err))).
Proof.
  unfold corsOrigin. destruct origin as [o |].
  - destruct (str_eqb o []) eqn:E0; cbn [orb].
    + apply str_eqb_eq in E0. subst o.
      split; [split; auto | split; [discriminate | intros err H; discriminate]].
    + apply str_eqb_neq in E0.
      destruct (mem o allowedOrigins) eqn:Em.
      * apply mem_true_iff in Em.
        split; [split; eauto | split; [discriminate | intros err H; discriminate]].
      * apply mem_false_iff in Em. split; [| split; [discriminate |]].
        -- split; [discriminate |].
           intros [H | [H | [o' [H Hin]]]]; try discriminate; injection H as ->;
             contradiction.
        -- intros err H. injection H as <-. exists o. cbn [message].
           split; [reflexivity |]. split; [exact E0 |]. split; [exact Em |].
           split.
           ++ exists (CROSS_MARK ++ lit " Not allowed by CORS: ").
              now rewrite <- !app_assoc.
           ++ assert (Hc : includes (lit "CORS")
                             (CROSS_MARK ++ lit " Not allowed by CORS: " ++ o) = true).
              { apply includes_iff.
                exists (CROSS_MARK ++ lit " Not allowed by "), (lit ": " ++ o).
                now rewrite <- !app_assoc. }
              unfold errorHandler.
              replace (includes _ _) with true by (symmetry; exact Hc).
              reflexivity.
  - split; [split; auto | split; [discriminate | intros err H; discriminate]].
Qed.

(** X12. The answer to an upload error carries one of three fixed texts or the
    message of the error itself, and the latter only when that message is
    the filter's not-an-image text or contains "CORS"; the status is 400,
    403 or 500, and with 500 the text is always the generic one. *)
Theorem upload_error_response_texts (err : JsError) :
  (status (upload_error_response err) = 400 \/
   status (upload_error_response err) = 403 \/
   status (upload_error_response err) = 500) /\
  (status (upload_error_response err) = 500 ->
   body (upload_error_response err) = ErrorBody (lit "Something went wrong!")) /\
  (exists msg,
     body (upload_error_response err) = ErrorBody msg /\
     (msg = lit "File too large. Maximum size is 5MB." \/
      msg = lit "Too many files. Maximum is 5 files." \/
      msg = lit "Something went wrong!" \/
      (msg = message err /\
       (message err = NOT_AN_IMAGE \/ contains (lit "CORS") (message err))))).
Proof.
  unfold upload_error_response, handleUploadError, errorHandler.
  destruct (isMulterError err);
    try destruct (code_is err "LIMIT_FILE_SIZE");
    try destruct (code_is err "LIMIT_FILE_COUNT");
    cbv zeta iota beta;
    try destruct (str_eqb (message err) NOT_AN_IMAGE) eqn:En;
    try destruct (includes (lit "CORS") (message err)) eqn:Ec;
    cbn [status body];
    (split; [tauto |]); (split; [intros; congruence || reflexivity |]);
    eexists; (split; [reflexivity |]);
    try (apply str_eqb_eq in En); try (apply includes_iff in Ec); tauto.
Qed.

(** ** One url for a file *)

(** X13. Under one environment the url an upload response gives for a stored
    file is the url the listing gives for the entry of the same name. *)
Theorem upload_and_list_urls_agree
  (env : option str) (files : option (list StoredFile)) (w : World)
  (uploaded listed : MediaItem)
  (Hup : In uploaded (response_data (router_post env files)))
  (Hls : In listed (response_data (fst (router_get env w))))
  (Hname : filename uploaded = filename listed) :
  url uploaded = url listed /\
  url uploaded = backendUrl env ++ lit "/uploads/" ++ filename uploaded.
Proof.
  assert (Hu : uploaded = media_item (backendUrl env) (filename uploaded)).
  { unfold router_post, response_data in Hup. cbn [body] in Hup.
    apply in_map_iff in Hup as [f [<- _]]. reflexivity. }
  assert (Hl : listed = media_item (backendUrl env) (filename listed)).
  { unfold router_get, readdir, response_data in Hls.
    destruct (uploads w); cbn [fst body] in Hls; [| destruct Hls].
    apply in_map_iff in Hls as [n [<- _]]. reflexivity. }
  rewrite Hu, Hl, Hname. split; reflexivity.
Qed.

Lemma upload_and_list_urls_agree_witness :
  let item := mkItem (lit "images-1-2.png") (lit "https://x.io/uploads/images-1-2.png") in
  url item = lit "https://x.io/uploads/images-1-2.png".
Proof.
  intros item.
  apply (@upload_and_list_urls_agree (Some (lit "https://x.io/api"))
           (Some [mkStored (mkFile (lit "images") (lit "a.png") (lit "image/png") 1)
                           (lit "images-1-2.png")])
           (mkWorld (Some [lit "images-1-2.png"]) []) item item).
  - vm_compute. now left.
  - vm_compute. now left.
  - reflexivity.
Defined.

(** ** The base url loses a suffix or nothing *)

Lemma replace_at_end_split (r : Regex.re) (s : str) :
  exists suf, s = Regex.replace_at_end r s ++ suf /\ (suf = [] \/ Regex.lang r suf).
Proof.
  induction s as [|c s IH]; cbn [Regex.replace_at_end].
  - exists []. split; [now destruct (Regex.matches r []) | now left].
  - destruct (Regex.matches r (c :: s)) eqn:Hm.
    + exists (c :: s). split; [reflexivity |]. right. now apply matches_iff.
    + destruct IH as [suf [E H]]. exists suf. split; [| exact H].
      simpl. now rewrite <- E.
Qed.

(** X14. The public base url is the configured value, or nothing when none is
    configured, cut at its end by ["/api"], by ["/api/"] or not at all. *)
Theorem backendUrl_cut (env : option str) :
  exists suffix,
    match env with Some s => s | None => [] end = backendUrl env ++ suffix /\
    (suffix = [] \/ suffix = lit "/api" \/ suffix = lit "/api/").
Proof.
  unfold backendUrl.
  destruct (replace_at_end_split apiSuffixRe (match env with Some s => s | None => [] end))
    as [suf [E H]].
  exists suf. split; [exact E |].
  destruct H as [H | H]; [now left |]. right. now apply lang_apiSuffixRe_iff.
Qed.
